(** * Hierarchical visual localisation: the evaluation pipeline, embedded

    A shallow embedding of [evaluate.py] (global neighbour post-processing,
    the co-visibility cluster builder, local matching, the pose step of the
    per-query loop, the failure statistics) and of [PointCloudSplit] from
    [models/cirtorch_utils/genericdataset.py].

    Python objects that are shared and updated in place (the sets stored in
    [img_cluster], the loop variables of [local_matching] that survive from
    one query to the next) are modelled as an explicit store that is
    threaded through the code.  Python exceptions are values of [exn]. *)

From Stdlib Require Import ZArith List Bool Lia PrimFloat.
From Stdlib Require Uint63.
From Stdlib Require SpecFloat FloatOps FloatAxioms.
From stdpp Require Import gmap sets list strings.

Set Default Proof Using "Type".
#[local] Set Warnings "-clear-no-such-hyp".
Open Scope Z_scope.

(** ** Exceptions and the result monad *)

Inductive exn : Type :=
  | KeyError
  | IndexError
  | UnboundLocalError
  | ValueError
  | ZeroDivisionError
  | StopIteration
  | AssertionError.

Inductive res (A : Type) : Type :=
  | Ok (a : A)
  | Raise (e : exn).
Arguments Ok {A} a.
Arguments Raise {A} e.

Definition bind {A B : Type} (m : res A) (k : A → res B) : res B :=
  match m with
  | Ok a => k a
  | Raise e => Raise e
  end.

Notation "'do' x <- m ; k" := (bind m (fun x => k))
  (at level 10, x pattern, m at level 100, k at level 200).

Definition is_ok {A : Type} (m : res A) : bool :=
  match m with Ok _ => true | Raise _ => false end.

(** [l[i]] on a Python list: a negative index counts from the end, an index
    out of range raises [IndexError]. *)
Definition py_getitem {A : Type} (l : list A) (i : Z) : res A :=
  let n := Z.of_nat (length l) in
  let j := if i <? 0 then n + i else i in
  if (j <? 0) || (n <=? j) then Raise IndexError
  else match l !! Z.to_nat j with
       | Some x => Ok x
       | None => Raise IndexError
       end.

(** [l[i]] for an index that is a non-negative machine integer. *)
Definition item {A : Type} (l : list A) (i : nat) : res A :=
  match l !! i with
  | Some x => Ok x
  | None => Raise IndexError
  end.

(** [d[k]] on a dict. *)
Definition dict_get `{Countable K} {V : Type} (d : gmap K V) (k : K) : res V :=
  match d !! k with
  | Some v => Ok v
  | None => Raise KeyError
  end.

Fixpoint mapM {A B : Type} (f : A → res B) (l : list A) : res (list B) :=
  match l with
  | [] => Ok []
  | x :: l' => do y <- f x; do ys <- mapM f l'; Ok (y :: ys)
  end.

Fixpoint foldM {A S : Type} (f : S → A → res S) (l : list A) (s : S) : res S :=
  match l with
  | [] => Ok s
  | x :: l' => do s' <- f s x; foldM f l' s'
  end.

(** numpy: [a[idx]] with an integer index array, [a[mask]] with a boolean
    mask (the mask must be as long as the array). *)
Definition np_take {A : Type} (a : list A) (idx : list nat) : res (list A) :=
  mapM (item a) idx.

Fixpoint select {A : Type} (mask : list bool) (a : list A) : list A :=
  match mask, a with
  | b :: mask', x :: a' => if b then x :: select mask' a' else select mask' a'
  | _, _ => []
  end.

Definition np_mask {A : Type} (mask : list bool) (a : list A) : res (list A) :=
  if Nat.eqb (length mask) (length a) then Ok (select mask a)
  else Raise IndexError.

(** ** [PointCloudSplit] (genericdataset.py) *)

Module PointCloudSplit.

Section Split.
Context {A : Type}.

Record t : Type := mk {
  point_list : list A;
  idcs : list nat
}.

(** One turn of the loop of [__init__]. *)
Definition init_step (val : bool) (split : Z) (acc : list nat) (i : nat)
  : list nat :=
  if Z.of_nat i mod split =? 0
  then (if val then acc ++ [i] else acc)
  else (if negb val then acc ++ [i] else acc).

(** [__init__]: [i % split] raises for [split = 0] as soon as the loop
    runs once. *)
Definition init (pl : list A) (val : bool) (split : Z) : res t :=
  if (split =? 0) && negb (Nat.eqb (length pl) 0)
  then Raise ZeroDivisionError
  else Ok (mk pl (fold_left (init_step val split) (seq 0 (length pl)) [])).

Definition getitem (d : t) (index : Z) : res A :=
  do idx <- py_getitem (idcs d) index;
  py_getitem (point_list d) (Z.of_nat idx).

Definition len (d : t) : nat := length (idcs d).

(** The indices a split keeps, written as the test of a comprehension. *)
Definition selects (val : bool) (split : Z) (i : nat) : bool :=
  Bool.eqb (Z.of_nat i mod split =? 0) val.

End Split.

Arguments t : clear implicits.

End PointCloudSplit.

(** ** The co-visibility map and the cluster builder (evaluate.py) *)

Module Cluster.

(** [img_cluster] is a dict from image id to a set object.  The cluster
    builder puts these very objects into [cluster_query] and updates them
    with [|=], so a cluster is held as a reference: the key of
    [img_cluster] whose set object it is.  The list of these keys is the
    source's [cluster_orig_ids]. *)

Definition deref (m : gmap Z (gset Z)) (r : Z) : gset Z := m !!! r.

(** [img_cluster[img_id] |= img_ids] for every image that sees the point. *)
Fixpoint add_point (img_ids : gset Z) (todo : list Z) (m : gmap Z (gset Z))
  : res (gmap Z (gset Z)) :=
  match todo with
  | [] => Ok m
  | img_id :: todo' =>
      match m !! img_id with
      | None => Raise KeyError
      | Some c => add_point img_ids todo' (<[img_id := c ∪ img_ids]> m)
      end
  end.

Fixpoint add_points (points3d : list (Z * list Z)) (m : gmap Z (gset Z))
  : res (gmap Z (gset Z)) :=
  match points3d with
  | [] => Ok m
  | (_, image_ids) :: rest =>
      let img_ids : gset Z := list_to_set image_ids in
      do m' <- add_point img_ids (elements img_ids) m;
      add_points rest m'
  end.

(** [get_img_cluster(images, points3d)]: [images] lists the keys of the
    image dict, [points3d] the points with the images that observe them. *)
Definition get_img_cluster (images : list Z) (points3d : list (Z * list Z))
  : res (gmap Z (gset Z)) :=
  add_points points3d (list_to_map ((λ img, (img, ∅)) <$> images)).

(** The inner loop [for j, c in enumerate(cluster_query): if ind in c]:
    the reference of the first cluster, in creation order, that holds
    [ind]. *)
Fixpoint find_cluster (m : gmap Z (gset Z)) (ind : Z) (cluster_query : list Z)
  : option Z :=
  match cluster_query with
  | [] => None
  | r :: rest =>
      if decide (ind ∈ deref m r) then Some r else find_cluster m ind rest
  end.

(** One turn of the loop over [indices[query_id]] for [i > 0]. *)
Definition add_neighbor (image_ids : list Z)
    (st : gmap Z (gset Z) * list Z) (idx : nat)
  : res (gmap Z (gset Z) * list Z) :=
  let '(m, cluster_query) := st in
  match image_ids !! idx with
  | None => Raise IndexError
  | Some ind =>
      match m !! ind with
      | None => Raise KeyError
      | Some point_set =>
          match find_cluster m ind cluster_query with
          | Some r => Ok (<[r := deref m r ∪ point_set]> m, cluster_query)
          | None => Ok (m, cluster_query ++ [ind])
          end
      end
  end.

Fixpoint add_neighbors (image_ids : list Z) (row : list nat)
    (st : gmap Z (gset Z) * list Z) : res (gmap Z (gset Z) * list Z) :=
  match row with
  | [] => Ok st
  | idx :: row' =>
      do st' <- add_neighbor image_ids st idx;
      add_neighbors image_ids row' st'
  end.

(** The cluster builder with [args.cluster] set: the updated [img_cluster]
    and the references held by [cluster_query]. *)
Definition build_clusters (image_ids : list Z) (row : list nat)
    (img_cluster : gmap Z (gset Z)) : res (gmap Z (gset Z) * list Z) :=
  match row with
  | [] => Raise IndexError
  | idx0 :: row' =>
      match image_ids !! idx0 with
      | None => Raise IndexError
      | Some i0 =>
          match img_cluster !! i0 with
          | None => Raise KeyError
          | Some _ => add_neighbors image_ids row' (img_cluster, [i0])
          end
      end
  end.

(** What [cluster_query] holds once the loop is over. *)
Definition clusters_of (st : gmap Z (gset Z) * list Z) : list (gset Z) :=
  deref st.1 <$> st.2.

(** Without [args.cluster]: one cluster, the ids at the first
    [n_neighbors] positions of the row. *)
Fixpoint ids_at (image_ids : list Z) (row : list nat) (positions : list nat)
  : res (list Z) :=
  match positions with
  | [] => Ok []
  | i :: positions' =>
      match row !! i with
      | None => Raise IndexError
      | Some idx =>
          match image_ids !! idx with
          | None => Raise IndexError
          | Some ind =>
              do rest <- ids_at image_ids row positions'; Ok (ind :: rest)
          end
      end
  end.

Definition top_k_cluster (image_ids : list Z) (row : list nat) (n_neighbors : Z)
  : res (list Z) :=
  match row with
  | [] => Raise IndexError
  | idx0 :: _ =>
      match image_ids !! idx0 with
      | None => Raise IndexError
      | Some _ => ids_at image_ids row (seq 0 (Z.to_nat n_neighbors))
      end
  end.

(** The cluster builder in the words of the specification: clusters are
    plain sets, nothing is shared. *)
Fixpoint merge_first (ind : Z) (s : gset Z) (cs : list (gset Z))
  : option (list (gset Z)) :=
  match cs with
  | [] => None
  | c :: cs' =>
      if decide (ind ∈ c) then Some ((c ∪ s) :: cs')
      else (c ::.) <$> merge_first ind s cs'
  end.

Definition spec_add (cov : Z → gset Z) (cs : list (gset Z)) (ind : Z)
  : list (gset Z) :=
  match merge_first ind (cov ind) cs with
  | Some cs' => cs'
  | None => cs ++ [cov ind]
  end.

Definition spec_clusters (cov : Z → gset Z) (neighbors : list Z)
  : list (gset Z) :=
  match neighbors with
  | [] => []
  | n0 :: rest => fold_left (spec_add cov) rest [cov n0]
  end.

(** The invariant of the loop over the neighbours: [m0] is [img_cluster]
    when the builder starts, [done] the neighbours seen so far. *)
Definition union_inv (m0 : gmap Z (gset Z)) (done : list Z)
    (st : gmap Z (gset Z) * list Z) : Prop :=
  (∀ k, is_Some (st.1 !! k) ↔ is_Some (m0 !! k)) ∧
  (∀ k, deref m0 k ⊆ deref st.1 k) ∧
  (∀ k, deref st.1 k ⊆ deref m0 k ∪ ⋃ (deref m0 <$> done)) ∧
  (∀ r, r ∈ st.2 → r ∈ done) ∧
  (∀ n, n ∈ done → deref m0 n ⊆ ⋃ (deref st.1 <$> st.2)).

End Cluster.

(** ** Self-match removal in [global_neighbors] (verification mode) *)

Module Neighbors.

(** The inner loop over [indices[i,1:]]: [lst] and [j] are the source's
    accumulators, the test [j >= args.n_neighbors] comes after the append. *)
Fixpoint cut_loop (image_ids : list Z) (img_itself : Z) (n_neighbors : Z)
    (cands : list nat) (lst : list nat) (j : Z) : res (list nat) :=
  match cands with
  | [] => Ok lst
  | idx :: cands' =>
      match image_ids !! idx with
      | None => Raise IndexError
      | Some id =>
          let keep := negb (Z.abs id =? img_itself) in
          let lst' := if keep then lst ++ [idx] else lst in
          let j' := if keep then j + 1 else j in
          if j' >=? n_neighbors then Ok lst'
          else cut_loop image_ids img_itself n_neighbors cands' lst' j'
      end
  end.

(** One row: [img_itself] is read off the top-ranked candidate. *)
Definition cut_row (image_ids : list Z) (n_neighbors : Z) (row : list nat)
  : res (list nat) :=
  match row with
  | [] => Raise IndexError
  | top :: cands =>
      match image_ids !! top with
      | None => Raise IndexError
      | Some id0 => cut_loop image_ids (Z.abs id0) n_neighbors cands [] 0
      end
  end.

Fixpoint cut_rows (image_ids : list Z) (n_neighbors : Z)
    (indices : list (list nat)) : res (list (list nat)) :=
  match indices with
  | [] => Ok []
  | row :: rest =>
      do lst <- cut_row image_ids n_neighbors row;
      do tl <- cut_rows image_ids n_neighbors rest;
      Ok (lst :: tl)
  end.

(** [np.stack]: at least one row, all rows of one length. *)
Definition np_stack (rows : list (list nat)) : res (list (list nat)) :=
  match rows with
  | [] => Raise ValueError
  | r :: rs =>
      if forallb (λ r', Nat.eqb (length r') (length r)) rs then Ok rows
      else Raise ValueError
  end.

(** The post-processing of [indices] at the end of [global_neighbors]:
    [verify] stands for [args.verify is not None], [width] is the local
    [n_neighbors] (already raised by one or two in verification mode). *)
Definition postprocess (verify : bool) (image_ids : list Z)
    (n_neighbors : Z) (width : nat) (indices : list (list nat))
  : res (list (list nat)) :=
  if verify then
    do indices_cut <- cut_rows image_ids n_neighbors indices;
    np_stack indices_cut
  else Ok (take width <$> indices).

(** Whether candidate [idx] refers to the image with id [qid], up to the
    sign that marks augmented images. *)
Definition refers_to (image_ids : list Z) (qid : Z) (idx : nat) : bool :=
  match image_ids !! idx with
  | Some id => Z.abs id =? Z.abs qid
  | None => false
  end.

(** The claim's reading: drop every candidate that refers to the query
    image, keep the first [k] of the others. *)
Definition spec_cut (image_ids : list Z) (qid : Z) (k : nat) (row : list nat)
  : list nat :=
  take k (List.filter (λ idx, negb (refers_to image_ids qid idx)) row).


End Neighbors.

(** ** Local matching: [double_matching] and [match_local] *)

Module Matching.

(** Modelled from the spec: [LocalMatcher.match] of
    [common/feature_matching.py], which is not among the sources.  For every
    query descriptor the nearest database descriptor by L2 distance is
    found, and the match is accepted only if nearest / second-nearest is
    below the threshold [num / den].  Descriptors are integer vectors and
    distances are compared squared.  A match is a pair (index into the
    first argument, index into the second). *)
Fixpoint sqdist (u v : list Z) : Z :=
  match u, v with
  | x :: u', y :: v' => (x - y) * (x - y) + sqdist u' v'
  | _, _ => 0
  end.

Fixpoint best_two (q : list Z) (db : list (list Z)) (i : nat)
    (best : option (nat * Z)) (second : option Z)
  : option (nat * Z) * option Z :=
  match db with
  | [] => (best, second)
  | d :: db' =>
      let x := sqdist q d in
      match best with
      | None => best_two q db' (S i) (Some (i, x)) second
      | Some (bi, bx) =>
          if x <? bx then best_two q db' (S i) (Some (i, x)) (Some bx)
          else
            let sx := match second with
                      | None => x
                      | Some y => Z.min x y
                      end in
            best_two q db' (S i) best (Some sx)
      end
  end.

Fixpoint nn_match_from (num den : Z) (i : nat) (query db : list (list Z))
  : list (nat * nat) :=
  match query with
  | [] => []
  | q :: query' =>
      let rest := nn_match_from num den (S i) query' db in
      match best_two q db 0 None None with
      | (Some (bi, bx), Some sx) =>
          if den * den * bx <? num * num * sx then (i, bi) :: rest else rest
      | _ => rest
      end
  end.

Definition nn_match (num den : Z) (query db : list (list Z))
  : list (nat * nat) :=
  nn_match_from num den 0 query db.

Inductive local_method : Type := Colmap | Superpoint | D2.

Definition is_colmap (m : local_method) : bool :=
  match m with Colmap => true | _ => false end.

Record image : Type := mk_image {
  name : string;
  point3D_ids : list Z
}.

Section Matcher.
Context {D : Type}.
(** [local_matcher.match]. *)
Variable matcher : list D → list D → list (nat * nat).

Definition double_matching (query_desc neighbor_desc : list D)
  : list (nat * nat) :=
  let matches_forward := matcher query_desc neighbor_desc in
  let matches_reverse := matcher neighbor_desc query_desc in
  if Nat.eqb (length matches_forward) 0 || Nat.eqb (length matches_reverse) 0
  then []
  else
    let mr := snd <$> matches_reverse in
    List.filter (λ m : nat * nat, bool_decide (m.1 ∈ mr)) matches_forward.

(** The claim's reading: a forward match (q, d) stays iff the reverse
    matching holds the pair (d, q). *)
Definition mutual_matching (query_desc neighbor_desc : list D)
  : list (nat * nat) :=
  let matches_reverse := matcher neighbor_desc query_desc in
  List.filter (λ m : nat * nat, bool_decide ((m.2, m.1) ∈ matches_reverse))
    (matcher query_desc neighbor_desc).
End Matcher.

Section MatchLocal.
Context {D K XYZ : Type}.
Variable matcher : list D → list D → list (nat * nat).
(** [to_unit_vector] of [common/feature_matching.py]. *)
Variable to_unit_vector : list D → list D.
(** The descriptor rows of an image in the colmap database; the
    descriptors a network yields for an image at its valid keypoints (or
    the rows of [desc_database]). *)
Variable descriptors_from_colmap_db : Z → res (list D).
Variable neural_descriptors : Z → list bool → res (list D).

(** The arguments of [match_local] that do not change while it runs:
    [verify] is [args.verify is not None], [approx] is ['approx' in mm],
    [query_self] is [query_image_ids[query_id]]. *)
Record config : Type := mk_config {
  verify : bool;
  method : local_method;
  approx : bool;
  refilter : bool;
  double : bool;
  query_self : Z;
  images : gmap Z image;
  points3d : gmap Z XYZ
}.

Record acc : Type := mk_acc {
  matched_kpts_cv : list K;
  matched_pts : list Z;
  pt_ids_all : list (list Z);
  data_descs : list (list D)
}.

Record result : Type := mk_result {
  matched_pts_xyz : list XYZ;
  matched_keypoints : list K;
  correct : Z;
  incorrect : Z
}.

Definition valid_mask (im : image) : list bool :=
  (λ p, 0 <? p) <$> point3D_ids im.

Definition run_matcher (c : config) (query_desc data_desc : list D)
  : list (nat * nat) :=
  if double c then double_matching matcher query_desc data_desc
  else matcher query_desc data_desc.

(** The descriptors of database image [img], index-aligned with its valid
    3D-point ids. *)
Definition load_desc (c : config) (img : Z) (valid : list bool)
  : res (list D) :=
  do data_desc <-
    match method c with
    | Colmap =>
        do d <- descriptors_from_colmap_db img;
        np_mask (take (length d) valid) d
    | Superpoint | D2 => neural_descriptors img valid
    end;
  Ok (if approx c then to_unit_vector data_desc else data_desc).

(** The body of [for img in c]. *)
Definition match_image (c : config) (query_desc : list D)
    (query_kpts : list K) (a : acc) (img : Z) : res acc :=
  if verify c && (Z.abs img =? Z.abs (query_self c)) then Ok a
  else
    do im <- dict_get (images c) (Z.abs img);
    let valid := valid_mask im in
    let pt_ids := select valid (point3D_ids im) in
    do data_desc <- load_desc c img valid;
    let matches := run_matcher c query_desc data_desc in
    if Nat.ltb 0 (length matches) then
      if refilter c then
        do p <- np_take pt_ids (snd <$> matches);
        do d <- np_take data_desc (snd <$> matches);
        Ok (mk_acc (matched_kpts_cv a) (matched_pts a)
              (pt_ids_all a ++ [p]) (data_descs a ++ [d]))
      else
        do ks <- mapM (λ m : nat * nat, item query_kpts m.1) matches;
        do ps <- mapM (λ m : nat * nat, item pt_ids m.2) matches;
        Ok (mk_acc (matched_kpts_cv a ++ ks) (matched_pts a ++ ps)
              (pt_ids_all a) (data_descs a))
    else Ok a.

(** The verification count over the refiltered matches. *)
Fixpoint count_correct (valid_o : list bool) (pt_ids_o : list Z)
    (pool_ids : list Z) (matches : list (nat * nat)) (ci : Z * Z)
  : res (Z * Z) :=
  match matches with
  | [] => Ok ci
  | (m1, m2) :: rest =>
      do v <- item valid_o m1;
      if v : bool then
        do o <- item pt_ids_o m1;
        do p <- item pool_ids m2;
        count_correct valid_o pt_ids_o pool_ids rest
          (if o =? p then (ci.1 + 1, ci.2) else (ci.1, ci.2 + 1))
      else count_correct valid_o pt_ids_o pool_ids rest ci
  end.

(** The second stage of refiltering, after the loop over the clusters. *)
Definition refilter_stage (c : config) (query_desc : list D)
    (query_kpts : list K) (gt : option (list bool * list Z)) (a : acc)
  : res (list K * list Z * (Z * Z)) :=
  if Nat.ltb (length (pt_ids_all a)) 1 || Nat.ltb (length (data_descs a)) 2
  then Ok (matched_kpts_cv a, matched_pts a, (0, 0))
  else
    let pool_ids := concat (pt_ids_all a) in
    let pool := concat (data_descs a) in
    let pool := if approx c then to_unit_vector pool else pool in
    let matches := run_matcher c query_desc pool in
    do ks <- mapM (λ m : nat * nat, item query_kpts m.1) matches;
    do ps <- mapM (λ m : nat * nat, item pool_ids m.2) matches;
    do ci <- match gt with
             | Some (valid_o, pt_ids_o) =>
                 count_correct valid_o pt_ids_o pool_ids matches (0, 0)
             | None => Ok (0, 0)
             end;
    Ok (ks, ps, ci).

(** What one image adds to the accumulators of a refiltering run. *)
Definition add_contribution (a : acc) (o : option (list Z * list D)) : acc :=
  match o with
  | Some (p, d) =>
      mk_acc (matched_kpts_cv a) (matched_pts a)
        (pt_ids_all a ++ [p]) (data_descs a ++ [d])
  | None => a
  end.

(** Lines 279 to 282: the query's own 3D-point ids, known in verification
    mode with colmap features. *)
Definition ground_truth (c : config) : res (option (list bool * list Z)) :=
  if verify c && is_colmap (method c) then
    do im <- dict_get (images c) (query_self c);
    let ids := point3D_ids im in
    Ok (Some (valid_mask im, take (length ids / 2)%nat ids))
  else Ok None.

(** Lines 362 to 370. *)
Definition lookup_points (c : config) (r : list K * list Z * (Z * Z))
  : res result :=
  let '(ks, ps, ci) := r in
  do xyz <- mapM (dict_get (points3d c)) ps;
  Ok (mk_result xyz ks ci.1 ci.2).

Definition match_local (c : config) (query_desc : list D)
    (query_kpts : list K) (cluster_query : list (list Z)) : res result :=
  let query_desc :=
    if approx c then to_unit_vector query_desc else query_desc in
  do gt <- ground_truth c;
  do a <- foldM (λ a cl, foldM (match_image c query_desc query_kpts) cl a)
            cluster_query (mk_acc [] [] [] []);
  do r <-
    (if refilter c then refilter_stage c query_desc query_kpts gt a
     else Ok (matched_kpts_cv a, matched_pts a, (0, 0)));
  lookup_points c r.
(** Point id [id] is a valid 3D-point id of a database image among [imgs]
    that [match_local] does not skip. *)
Definition from_cluster (c : config) (imgs : list Z) (id : Z) : Prop :=
  ∃ img im, img ∈ imgs ∧
            verify c && (Z.abs img =? Z.abs (query_self c)) = false ∧
            images c !! Z.abs img = Some im ∧
            id ∈ point3D_ids im ∧ 0 < id.

(** What the loop over the images keeps true of its accumulators. *)
Definition acc_ok (c : config) (imgs : list Z) (a : acc) : Prop :=
  length (matched_kpts_cv a) = length (matched_pts a) ∧
  Forall (from_cluster c imgs) (matched_pts a) ∧
  Forall (Forall (from_cluster c imgs)) (pt_ids_all a).

End MatchLocal.

Section RefilterReadings.
Context {D K XYZ : Type}.
Variable matcher : list D → list D → list (nat * nat).
Variable to_unit_vector : list D → list D.
Variable descriptors_from_colmap_db : Z → res (list D).
Variable neural_descriptors : Z → list bool → res (list D).

Let config := @config XYZ.
Let load_desc :=
  @load_desc D XYZ to_unit_vector descriptors_from_colmap_db
    neural_descriptors.

Definition is_self (c : config) (img : Z) : bool :=
  verify c && (Z.abs img =? Z.abs (query_self c)).

(** The claim's reading of refiltering: every (3D point, descriptor) pair
    of every member image goes into the pool, nothing is matched before
    the single pass over the pool. *)
Definition candidates (c : config) (img : Z) : res (list Z * list D) :=
  do im <- dict_get (images c) (Z.abs img);
  let valid := valid_mask im in
  do data_desc <- load_desc c img valid;
  Ok (select valid (point3D_ids im), data_desc).

Definition spec_refilter (c : config) (query_desc : list D)
    (query_kpts : list K) (cluster_query : list (list Z))
  : res (list K * list Z) :=
  let query_desc :=
    if approx c then to_unit_vector query_desc else query_desc in
  do cands <- mapM (candidates c)
                (List.filter (λ img, negb (is_self c img))
                   (concat cluster_query));
  let pool_ids := concat (fst <$> cands) in
  let pool := concat (snd <$> cands) in
  let matches := run_matcher matcher c query_desc pool in
  do ks <- mapM (λ m : nat * nat, item query_kpts m.1) matches;
  do ps <- mapM (λ m : nat * nat, item pool_ids m.2) matches;
  Ok (ks, ps).

(** What the code does, as a comprehension: a first matching pass per
    member image picks the database descriptors that go into the pool. *)
Definition contribution (c : config) (query_desc : list D) (img : Z)
  : res (option (list Z * list D)) :=
  if is_self c img then Ok None
  else
    do im <- dict_get (images c) (Z.abs img);
    let valid := valid_mask im in
    let pt_ids := select valid (point3D_ids im) in
    do data_desc <- load_desc c img valid;
    let matches := run_matcher matcher c query_desc data_desc in
    if Nat.ltb 0 (length matches) then
      do p <- np_take pt_ids (snd <$> matches);
      do d <- np_take data_desc (snd <$> matches);
      Ok (Some (p, d))
    else Ok None.

Definition two_stage (c : config) (query_desc : list D)
    (query_kpts : list K) (gt : option (list bool * list Z))
    (cluster_query : list (list Z)) : res (list K * list Z * (Z * Z)) :=
  do cs <- mapM (contribution c query_desc) (concat cluster_query);
  let picked := omap id cs in
  if Nat.ltb (length picked) 2 then Ok ([], [], (0, 0))
  else
    let pool_ids := concat (fst <$> picked) in
    let pool := concat (snd <$> picked) in
    let pool := if approx c then to_unit_vector pool else pool in
    let matches := run_matcher matcher c query_desc pool in
    do ks <- mapM (λ m : nat * nat, item query_kpts m.1) matches;
    do ps <- mapM (λ m : nat * nat, item pool_ids m.2) matches;
    do ci <- match gt with
             | Some (valid_o, pt_ids_o) =>
                 count_correct valid_o pt_ids_o pool_ids matches (0, 0)
             | None => Ok (0, 0)
             end;
    Ok (ks, ps, ci).
End RefilterReadings.

End Matching.

(** ** Floats *)

(** A Python [int] read as a [float] (exact below 2^53). *)
Definition float_of_Z (z : Z) : float := PrimFloat.of_uint63 (Uint63.of_Z z).

(** [100.0 * (a / b)] for Python ints [a] and [b]. *)
Definition percentage (a b : Z) : res float :=
  if b =? 0 then Raise ZeroDivisionError
  else Ok (PrimFloat.mul 100 (PrimFloat.div (float_of_Z a) (float_of_Z b))).

(** ** The per-query loop of [local_matching] *)

Module Pipeline.

Import Matching.

(** [calc_neighbor_match]: the share of the valid 3D points of image
    [img_idx] that image [neighbor_idx] sees too. *)
Definition calc_neighbor_match (images : gmap Z image)
    (img_idx neighbor_idx : Z) : res float :=
  do oimg <- dict_get images img_idx;
  do nimg <- dict_get images neighbor_idx;
  let pt_ids_o := List.filter (λ p, 0 <? p) (point3D_ids oimg) in
  let pt_ids_n := List.filter (λ p, 0 <? p) (point3D_ids nimg) in
  let pt_ids_s := List.filter (λ p, bool_decide (p ∈ pt_ids_n)) pt_ids_o in
  percentage (Z.of_nat (length pt_ids_s))
    (Z.min (Z.of_nat (length pt_ids_o)) (Z.of_nat (length pt_ids_n))).

(** Calls into OpenCV, in the order they are made. *)
Inductive call : Type := CallRansac | CallRefine.

Section LocalMatching.
Context {D K XYZ CM RV TV Pos Quat : Type}.
Variable matcher : list D → list D → list (nat * nat).
Variable to_unit_vector : list D → list D.
Variable descriptors_from_colmap_db : Z → res (list D).
Variable neural_descriptors : Z → list bool → res (list D).
(** [cv2.solvePnPRansac] (with the iteration count and the reprojection
    error of the configuration) and [cv2.solvePnP] with an extrinsic
    guess. *)
Variable solvePnPRansac :
  list XYZ → list K → CM → float → bool * RV * TV * option (list nat).
Variable solvePnP :
  list XYZ → list K → CM → float → RV → TV → bool * RV * TV.
(** Lines 779 to 786: [position] and [quat] from the refined pose. *)
Variable pose_of : RV → TV → Pos * Quat.
(** Lines 795 to 798: translation and rotation error against the ground
    truth of an image. *)
Variable pose_error : image → Pos → Quat → float * float.
(** [-txq.rotate_vector(position, quat)]. *)
Variable rotate_position : Pos → Quat → Pos.
(** The last four components of the query file name; the rewrite of a
    path that holds ['Augmented']. *)
Variable query_path_of : string → string.
Variable fix_augmented : string → string.

Record args : Type := mk_args {
  verify : bool;
  cluster : bool;
  n_neighbors : Z;
  min_inliers : Z;
  local_method_ : local_method;
  approx_matching : bool;
  no_refilter : bool;
  bidirectional_filtering : bool
}.

(** What [setup] and [global_neighbors] hand over and the loop only
    reads; [backfall_cm] is the [np.median] of the known camera matrices,
    computed once before the loop (lines 642 to 644). *)
Record env : Type := mk_env {
  images : gmap Z image;
  points3d : gmap Z XYZ;
  camera_matrices : gmap string (CM * float);
  backfall_cm : CM;
  image_ids : list Z;
  indices : list (list nat);
  query_image_ids : list Z
}.

(** A query image with the keypoints and descriptors extracted from it. *)
Record query : Type := mk_query {
  q_name : string;
  q_kpts : list K;
  q_desc : list D
}.

(** What survives from one turn of the loop to the next: the set objects
    of [img_cluster], the local variables [cm], [position] and [quat],
    the output file and the statistics lists. *)
Record state : Type := mk_state {
  img_cluster : gmap Z (gset Z);
  cm : option (CM * float);
  pose : option (Pos * Quat);
  out_file : list (string * Quat * Pos);
  top_neighbor_match : list (list float);
  local_matching_rate : list float;
  inlier_rates : list float;
  inlier_nums : list Z;
  errors : list float;
  errors_rot : list float
}.

Definition init_state (img_cluster : gmap Z (gset Z)) : state :=
  mk_state img_cluster None None [] [] [] [] [] [] [].

Record solved : Type := mk_solved {
  success : bool;
  new_pose : option (Pos * Quat);
  num_inliers : Z;
  inlier_rate : float;
  calls : list call
}.

(** Lines 748 to 786.  Without a RANSAC call [inliers] is [None] and
    [success] is [False], so nothing after the [else] of line 753 changes
    the outcome.  Indexing with [inliers = None] keeps every row. *)
Definition solve_pose (min_inliers : Z) (matched_pts_xyz : list XYZ)
    (matched_keypoints : list K) (camera_matrix : CM) (dist : float)
  : res solved :=
  if Nat.ltb 4 (length matched_pts_xyz) then
    let '(success, R_vec, translation, inliers) :=
      solvePnPRansac matched_pts_xyz matched_keypoints camera_matrix dist in
    do stats <-
      match inliers with
      | Some inls =>
          let n := Z.of_nat (length inls) in
          do r <- percentage n (Z.of_nat (length matched_keypoints));
          Ok (n, r)
      | None => Ok (0, 0%float)
      end;
    let '(num_inliers, rate) := stats in
    let success := success && (min_inliers <=? num_inliers) in
    if success then
      do pts <- match inliers with
                | Some inls => np_take matched_pts_xyz inls
                | None => Ok matched_pts_xyz
                end;
      do kps <- match inliers with
                | Some inls => np_take matched_keypoints inls
                | None => Ok matched_keypoints
                end;
      let '(ret, R_vec, t) :=
        solvePnP pts kps camera_matrix dist R_vec translation in
      Ok (mk_solved (success && ret) (Some (pose_of R_vec t))
            num_inliers rate [CallRansac; CallRefine])
    else Ok (mk_solved false None num_inliers rate [CallRansac])
  else Ok (mk_solved false None 0 0%float []).

(** Lines 649 to 652: the path under which the intrinsics are looked up. *)
Definition query_path_at (a : args) (e : env) (query_id : nat) (q : query)
  : res string :=
  if verify a then
    do qid <- item (query_image_ids e) query_id;
    do im <- dict_get (images e) (Z.abs qid);
    Ok (name im)
  else Ok (query_path_of (q_name q)).

(** Lines 658 to 665. *)
Definition neighbor_matches (e : env) (query_id : nat) (row : list nat)
  : res (list float) :=
  mapM (λ idx,
          do qid <- item (query_image_ids e) query_id;
          do id <- item (image_ids e) idx;
          calc_neighbor_match (images e) (Z.abs qid) (Z.abs id)) row.

(** Lines 667 to 685: the clusters handed to [match_local], and the
    [img_cluster] they leave behind. *)
Definition cluster_step (a : args) (e : env) (row : list nat)
    (img_cluster : gmap Z (gset Z))
  : res (gmap Z (gset Z) * list (list Z)) :=
  if cluster a then
    do st <- Cluster.build_clusters (image_ids e) row img_cluster;
    Ok (st.1, elements <$> Cluster.clusters_of st)
  else
    do c <- Cluster.top_k_cluster (image_ids e) row (n_neighbors a);
    Ok (img_cluster, [c]).

Definition match_config (a : args) (e : env) (query_id : nat)
  : Matching.config :=
  Matching.mk_config (verify a) (local_method_ a) (approx_matching a)
    (no_refilter a) (bidirectional_filtering a)
    (default 0 (query_image_ids e !! query_id)) (images e) (points3d e).

(** Lines 649 to 731: everything up to and including the matching. *)
Definition front (a : args) (e : env) (st : state) (query_id : nat)
    (q : query) : res (state * Matching.result * string) :=
  do query_path <- query_path_at a e query_id q;
  do row <- item (indices e) query_id;
  do tnm <-
    (if verify a then
       do tn <- neighbor_matches e query_id row;
       Ok (top_neighbor_match st ++ [tn])
     else Ok (top_neighbor_match st));
  do cl <- cluster_step a e row (img_cluster st);
  do r <- Matching.match_local matcher to_unit_vector
            descriptors_from_colmap_db neural_descriptors
            (match_config a e query_id) (q_desc q) (q_kpts q) cl.2;
  do lmr <-
    (if verify a && is_colmap (local_method_ a) then
       let sci := Matching.correct r + Matching.incorrect r in
       do prct <- (if 0 <? sci then percentage (Matching.correct r) sci
                   else Ok 0%float);
       Ok (local_matching_rate st ++ [prct])
     else Ok (local_matching_rate st));
  Ok (mk_state cl.1 (cm st) (pose st) (out_file st) tnm lmr
        (inlier_rates st) (inlier_nums st) (errors st) (errors_rot st),
      r, query_path).

(** Lines 737 to 746: [cm] is bound in the [else] branch only, and read
    after the [if]. *)
Definition intrinsics (e : env) (cm : option (CM * float))
    (query_path : string) : res (CM * float * option (CM * float)) :=
  let query_path := fix_augmented query_path in
  let '(camera_matrix, cm) :=
    match camera_matrices e !! query_path with
    | None => (backfall_cm e, cm)
    | Some entry => (entry.1, Some entry)
    end in
  match cm with
  | None => Raise UnboundLocalError
  | Some entry => Ok (camera_matrix, entry.2, cm)
  end.

(** Lines 794 to 814: [position] and [quat] are whatever the last
    successful turn left, or unbound. *)
Definition report (a : args) (e : env) (st : state) (query_id : nat)
    (q : query) (s : solved) : res state :=
  let pose := match new_pose s with Some p => Some p | None => pose st end in
  let st := mk_state (img_cluster st) (cm st) pose (out_file st)
              (top_neighbor_match st) (local_matching_rate st)
              (inlier_rates st ++ [inlier_rate s])
              (inlier_nums st ++ [num_inliers s])
              (errors st) (errors_rot st) in
  if verify a then
    do qid <- item (query_image_ids e) query_id;
    do im <- dict_get (images e) (Z.abs qid);
    match pose with
    | None => Raise UnboundLocalError
    | Some (position, quat) =>
        let '(error, error_rot) := pose_error im position quat in
        Ok (mk_state (img_cluster st) (cm st) pose (out_file st)
              (top_neighbor_match st) (local_matching_rate st)
              (inlier_rates st) (inlier_nums st)
              (errors st ++ [error]) (errors_rot st ++ [error_rot]))
    end
  else if success s then
    match pose with
    | None => Raise UnboundLocalError
    | Some (position, quat) =>
        let position := rotate_position position quat in
        Ok (mk_state (img_cluster st) (cm st) (Some (position, quat))
              (out_file st ++ [(q_name q, quat, position)])
              (top_neighbor_match st) (local_matching_rate st)
              (inlier_rates st) (inlier_nums st)
              (errors st) (errors_rot st))
    end
  else Ok st.

(** Lines 735 to 814. *)
Definition back (a : args) (e : env) (st : state) (query_id : nat)
    (q : query) (r : Matching.result) (query_path : string) : res state :=
  do i <- intrinsics e (cm st) query_path;
  let '(camera_matrix, dist, cm) := i in
  let st := mk_state (img_cluster st) cm (pose st) (out_file st)
              (top_neighbor_match st) (local_matching_rate st)
              (inlier_rates st) (inlier_nums st) (errors st) (errors_rot st) in
  do s <- solve_pose (min_inliers a) (Matching.matched_pts_xyz r)
            (Matching.matched_keypoints r) camera_matrix dist;
  report a e st query_id q s.

(** One turn of [for query_id, query_name in enumerate(query_images)]. *)
Definition query_body (a : args) (e : env) (st : state) (query_id : nat)
    (q : query) : res state :=
  do f <- front a e st query_id q;
  let '(st, r, query_path) := f in
  back a e st query_id q r query_path.

Fixpoint run_from (a : args) (e : env) (query_id : nat)
    (query_images : list query) (st : state) : res state :=
  match query_images with
  | [] => Ok st
  | q :: rest =>
      do st' <- query_body a e st query_id q;
      run_from a e (S query_id) rest st'
  end.

(** [local_matching], from the first query on. *)
Definition local_matching (a : args) (e : env)
    (img_cluster : gmap Z (gset Z)) (query_images : list query) : res state :=
  run_from a e 0 query_images (init_state img_cluster).
End LocalMatching.

End Pipeline.

(** ** The failure statistics of [stats] (lines 950 to 1021) *)

Module Stats.

(** [np.max] of one row: an empty row raises, a NaN wins. *)
Definition fmax (a b : float) : float :=
  if PrimFloat.is_nan a then a
  else if PrimFloat.is_nan b then b
  else if PrimFloat.ltb a b then b else a.

Definition np_max (row : list float) : res float :=
  match row with
  | [] => Raise ValueError
  | x :: rest => Ok (fold_left fmax rest x)
  end.

(** The entries the five arrays hold for one query. *)
Record sample : Type := mk_sample {
  error : float;
  error_rot : float;
  neighbor_match : list float;
  inlier_rate : float;
  inlier_num : Z
}.

(** The arrays are combined element by element, so they are read as one
    list of rows; arrays of different lengths do not combine. *)
Fixpoint samples (errors errors_rot : list float)
    (top_neighbor_match : list (list float)) (inlier_rates : list float)
    (inlier_nums : list Z) : res (list sample) :=
  match errors, errors_rot, top_neighbor_match, inlier_rates, inlier_nums with
  | [], [], [], [], [] => Ok []
  | e :: es, r :: rs, t :: ts, ir :: irs, n :: ns =>
      do rest <- samples es rs ts irs ns;
      Ok (mk_sample e r t ir n :: rest)
  | _, _, _, _, _ => Raise ValueError
  end.

(** The entries of the masks [valid], [bn], [fi], [li] and [ot], and of
    their intersections with [valid] and [~valid], for one query. *)
Record flags : Type := mk_flags {
  valid : bool;
  bn : bool; bni : bool; bnc : bool;
  fi : bool; fii : bool; fic : bool;
  li : bool; lii : bool; lic : bool;
  ot : bool; oti : bool; otc : bool
}.

Definition classify (s : sample) : res flags :=
  let valid := PrimFloat.ltb 5 (error s) || PrimFloat.ltb 10 (error_rot s) in
  do m <- np_max (neighbor_match s);
  let bn := negb (PrimFloat.ltb 0 m) in
  let fi := (inlier_num s <? 12) && negb bn in
  let li := PrimFloat.ltb (inlier_rate s) 10 && (negb fi && negb bn) in
  let ot := (negb li && negb fi) && negb bn in
  Ok (mk_flags valid
        bn (bn && valid) (bn && negb valid)
        fi (fi && valid) (fi && negb valid)
        li (li && valid) (li && negb valid)
        ot (ot && valid) (ot && negb valid)).

(** [np.sum] of a mask. *)
Definition np_sum (mask : flags → bool) (fs : list flags) : Z :=
  Z.of_nat (length (List.filter mask fs)).

Definition py_assert (b : bool) : res unit :=
  if b then Ok tt else Raise AssertionError.

(** The numbers the report prints under 'Identifying reasons'. *)
Record counts : Type := mk_counts {
  total : Z;
  by_wrong_neighbors : Z;
  by_few_inliers : Z;
  by_low_inlier_rate : Z;
  other : Z
}.

(** The block guarded by [if np.any(valid)]; [None] stands for the
    [else] branch, which prints that no image was found. *)
Definition reasons (errors errors_rot : list float)
    (top_neighbor_match : list (list float)) (inlier_rates : list float)
    (inlier_nums : list Z) : res (option (list flags * counts)) :=
  do ss <- samples errors errors_rot top_neighbor_match inlier_rates
             inlier_nums;
  if existsb (λ s, PrimFloat.ltb 5 (error s) || PrimFloat.ltb 10 (error_rot s))
       ss
  then
    do fs <- mapM classify ss;
    do _ <- py_assert (np_sum fii fs + np_sum fic fs =? np_sum fi fs);
    do _ <- py_assert (np_sum lii fs + np_sum lic fs =? np_sum li fs);
    do _ <- py_assert (np_sum oti fs + np_sum otc fs =? np_sum ot fs);
    Ok (Some (fs, mk_counts (np_sum valid fs) (np_sum bni fs)
                    (np_sum fii fs) (np_sum lii fs) (np_sum oti fs)))
  else Ok None.

(** The classification in the words of the specification: a failure is
    attributed to bad neighbours first, then to few inliers, then to a low
    inlier rate, then to 'other'. *)
Definition by_priority (s : sample) (f : flags) : Prop :=
  let few := inlier_num s <? 12 in
  let low := PrimFloat.ltb (inlier_rate s) 10 in
  valid f = PrimFloat.ltb 5 (error s) || PrimFloat.ltb 10 (error_rot s) ∧
  (∃ m, np_max (neighbor_match s) = Ok m ∧ bn f = negb (PrimFloat.ltb 0 m)) ∧
  bni f = valid f && bn f ∧
  fii f = valid f && negb (bn f) && few ∧
  lii f = valid f && negb (bn f) && negb few && low ∧
  oti f = valid f && negb (bn f) && negb few && negb low.

(** No query is in two categories, and every failure is in one. *)
Definition one_category (f : flags) : Prop :=
  bni f && fii f = false ∧ bni f && lii f = false ∧ bni f && oti f = false ∧
  fii f && lii f = false ∧ fii f && oti f = false ∧ lii f && oti f = false ∧
  valid f = bni f || fii f || lii f || oti f.

End Stats.

(** ** The localisation benchmark percentages (evaluate.py) *)

Module Report.

(** One turn of the loop of [percentage_stats] on the error pair [(t, q)];
    the state is [(num_high, num_medium, num_coarse)]. *)
Definition tier_step (day : bool) (acc : nat * nat * nat)
    (tq : float * float) : nat * nat * nat :=
  let '(t, q) := tq in
  let num_high := acc.1.1 in
  let num_medium := acc.1.2 in
  let num_coarse := acc.2 in
  let num_high :=
    if day && PrimFloat.leb t 0.25 && PrimFloat.leb q 2.0 then S num_high
    else if negb day && PrimFloat.leb t 0.5 && PrimFloat.leb q 2.0
         then S num_high
         else num_high in
  let num_medium :=
    if day && PrimFloat.leb t 0.5 && PrimFloat.leb q 5.0 then S num_medium
    else if negb day && PrimFloat.leb t 1.0 && PrimFloat.leb q 5.0
         then S num_medium
         else num_medium in
  let num_coarse :=
    if PrimFloat.leb t 5.0 && PrimFloat.leb q 10.0 then S num_coarse
    else num_coarse in
  (num_high, num_medium, num_coarse).

(** The three counters after the loop over [zip(errors_trans, errors_rot)]. *)
Definition tier_counts (errors_trans errors_rot : list float) (day : bool)
  : nat * nat * nat :=
  fold_left (tier_step day) (zip errors_trans errors_rot) (0, 0, 0)%nat.

(** [float(num) / float(n) * 100.0]. *)
Definition per (num n : nat) : res float :=
  if Nat.eqb n 0 then Raise ZeroDivisionError
  else Ok (PrimFloat.mul
             (PrimFloat.div (float_of_Z (Z.of_nat num))
                            (float_of_Z (Z.of_nat n)))
             100).

Definition percentage_stats (errors_trans errors_rot : list float)
    (day : bool) : res (float * float * float) :=
  let c := tier_counts errors_trans errors_rot day in
  do per_high <- per c.1.1 (length errors_trans);
  do per_medium <- per c.1.2 (length errors_trans);
  do per_coarse <- per c.2 (length errors_trans);
  Ok (per_high, per_medium, per_coarse).

End Report.

(** ** Example data *)

Module Demo.
Import Matching Pipeline.

(** Two database images in one cluster: image 1 with descriptors 10 and 13
    at the points 101 and 102, image 2 with descriptors 1000 and 5000 at
    the points 201 and 202; image 3 sees the points 101 and 201.  The ratio
    threshold of the examples is 3/4. *)
Definition demo_images : gmap Z image :=
  <[1 := mk_image "db/1.jpg" [101; 102]]>
    (<[2 := mk_image "db/2.jpg" [201; 202]]>
       (<[3 := mk_image "db/3.jpg" [101; 201]]> ∅)).

Definition demo_points : gmap Z Z :=
  <[101 := 1]> (<[102 := 2]> (<[201 := 3]> (<[202 := 4]> ∅))).

Definition demo_config : @config Z :=
  mk_config false Colmap false true false 0 demo_images demo_points.

Definition demo_db (img : Z) : res (list (list Z)) :=
  if img =? 1 then Ok [[10]; [13]]
  else if img =? 2 then Ok [[1000]; [5000]]
  else Raise StopIteration.

Definition no_network (img : Z) (valid : list bool) : res (list (list Z)) :=
  Raise StopIteration.

(** Stand-ins for OpenCV: RANSAC finds every correspondence but the last
    an inlier, the refinement converges. *)
Definition demo_ransac (xyz : list Z) (kps : list string) (camera_matrix : unit)
    (dist : float) : bool * unit * unit * option (list nat) :=
  (true, tt, tt, Some (seq 0 (length xyz - 1))).

Definition demo_refine (xyz : list Z) (kps : list string) (camera_matrix : unit)
    (dist : float) (R_vec translation : unit) : bool * unit * unit :=
  (true, tt, tt).

Definition demo_pose (R_vec translation : unit) : Z * Z := (7, 8).

Definition demo_error (im : image) (position quat : Z) : float * float :=
  (0%float, 0%float).

Definition demo_rotate (position quat : Z) : Z := - position.

Definition demo_args (verify : bool) : args :=
  mk_args verify true 2 3 Colmap false true false.

(** The intrinsics of the database images are known, those of the query
    file are not. *)
Definition demo_env : @env Z unit :=
  mk_env demo_images demo_points
    (<["db/1.jpg" := (tt, 0.5%float)]> (<["db/3.jpg" := (tt, 0.5%float)]> ∅))
    tt [1; 2; 3] [[0; 1]%nat] [3].

Definition demo_img_cluster : gmap Z (gset Z) :=
  <[1 := {[1; 2]}]> (<[2 := {[1; 2]}]> (<[3 := {[3]}]> ∅)).

Definition demo_query : @query (list Z) string :=
  mk_query "query/q.jpg" ["k0"; "k1"] [[40]; [9]].

(** A query whose only descriptor matches in image 2 alone. *)
Definition poor_query : @query (list Z) string :=
  mk_query "query/q.jpg" ["k0"] [[40]].

Definition demo_run (verify : bool) (queries : list (@query (list Z) string))
  : res (@state unit Z Z) :=
  local_matching (nn_match 3 4) id demo_db no_network demo_ransac
    demo_refine demo_pose demo_error demo_rotate id id
    (demo_args verify) demo_env demo_img_cluster queries.

(** A richer map for runs that localise a query: image 1 with descriptors
    100, 200, 300 at the points 101, 102, 103, image 2 with descriptors
    1000, 2000, 3000 at the points 201, 202, 203, and image 3, the query of
    verification runs, which sees the points 101 and 201 at its first two
    keypoints. *)
Definition rich_images : gmap Z image :=
  <[1 := mk_image "db/1.jpg" [101; 102; 103]]>
    (<[2 := mk_image "db/2.jpg" [201; 202; 203]]>
       (<[3 := mk_image "db/3.jpg"
                [101; 201; -1; -1; -1; -1; -1; -1; -1; -1; -1; -1]]> ∅)).

Definition rich_points : gmap Z Z :=
  <[101 := 1]> (<[102 := 2]> (<[103 := 3]>
    (<[201 := 4]> (<[202 := 5]> (<[203 := 6]> ∅))))).

Definition rich_db (img : Z) : res (list (list Z)) :=
  if img =? 1 then Ok [[100]; [200]; [300]]
  else if img =? 2 then Ok [[1000]; [2000]; [3000]]
  else if img =? 3 then Ok [[100]; [1000]]
  else Raise StopIteration.

Definition rich_env : @env Z unit :=
  mk_env rich_images rich_points
    (<["db/3.jpg" := (tt, 0.5%float)]> ∅)
    tt [1; 2; 3] [[0; 1]%nat; [1; 0]%nat] [3; 3].

Definition rich_query : @query (list Z) string :=
  mk_query "db/3.jpg" ["k0"; "k1"; "k2"; "k3"; "k4"; "k5"]
    [[101]; [201]; [301]; [1001]; [2001]; [3001]].

Definition rich_run (verify : bool) (queries : list (@query (list Z) string))
  : res (@state unit Z Z) :=
  local_matching (nn_match 3 4) id rich_db no_network demo_ransac
    demo_refine demo_pose demo_error demo_rotate id id
    (demo_args verify) rich_env demo_img_cluster queries.

End Demo.

(** * Properties *)

(** ** The result monad *)

Lemma bind_ok {A B : Type} (m : res A) (k : A → res B) (b : B) :
  bind m k = Ok b ↔ ∃ a, m = Ok a ∧ k a = Ok b.
Proof.
  destruct m as [a|e]; simpl.
  - split; [eauto|]. by intros (a' & [= <-] & Hk).
  - split; [done|]. by intros (a' & [=] & _).
Qed.

Lemma item_ok {A : Type} (l : list A) (i : nat) (x : A) :
  item l i = Ok x ↔ l !! i = Some x.
Proof. unfold item. destruct (l !! i); split; congruence. Qed.

Lemma py_getitem_nat {A : Type} (l : list A) (k : nat) (x : A) :
  l !! k = Some x → py_getitem l (Z.of_nat k) = Ok x.
Proof.
  intros Hk. pose proof (lookup_lt_Some _ _ _ Hk) as Hlt.
  unfold py_getitem.
  destruct (Z.ltb_spec (Z.of_nat k) 0); [lia|].
  destruct (Z.ltb_spec (Z.of_nat k) 0); [lia|].
  destruct (Z.leb_spec (Z.of_nat (length l)) (Z.of_nat k)); [lia|].
  simpl. by rewrite Nat2Z.id, Hk.
Qed.

(** ** [PointCloudSplit] *)

Module SplitFacts.
Import PointCloudSplit.

Section Facts.
Context {A : Type}.
Implicit Types (pl : list A) (val : bool) (split : Z).

Lemma init_step_filter val split (l acc : list nat) :
  fold_left (init_step val split) l acc
  = acc ++ List.filter (selects val split) l.
Proof.
  revert acc. induction l as [|i l IH]; intros acc; simpl.
  - by rewrite app_nil_r.
  - rewrite IH. unfold init_step, selects.
    destruct (Z.of_nat i mod split =? 0), val; simpl;
      by rewrite <- ?app_assoc.
Qed.

Lemma init_ok pl val split :
  split ≠ 0 →
  init pl val split
  = Ok (mk pl (List.filter (selects val split) (seq 0 (length pl)))).
Proof.
  intros Hs. unfold init.
  destruct (Z.eqb_spec split 0) as [->|_]; [done|]. simpl.
  by rewrite init_step_filter.
Qed.

Lemma elem_of_selected pl val split (i : nat) :
  i ∈ List.filter (selects val split) (seq 0 (length pl))
  ↔ (i < length pl)%nat ∧ ((Z.of_nat i mod split =? 0) = val).
Proof.
  rewrite list_elem_of_In, filter_In, in_seq. unfold selects.
  destruct (Z.of_nat i mod split =? 0), val; simpl; intuition (lia || done).
Qed.

Lemma selected_NoDup pl val split :
  NoDup (List.filter (selects val split) (seq 0 (length pl))).
Proof. apply NoDup_ListNoDup, List.NoDup_filter, seq_NoDup. Qed.

Lemma getitem_selected (d : t A) (k j : nat) (x : A) :
  idcs d !! k = Some j → point_list d !! j = Some x →
  getitem d (Z.of_nat k) = Ok x.
Proof.
  intros Hk Hj. unfold getitem.
  rewrite (py_getitem_nat _ _ _ Hk). simpl. by apply py_getitem_nat.
Qed.

(** C10: for a split value of at least 1 the validation dataset holds
    exactly the indices divisible by the split value and the training
    dataset the others, no index is in both or twice in one, the two
    lengths add up to the length of the point list, and item [k] of a
    dataset is the point at its [k]-th selected index. *)
Theorem split_partition pl split :
  1 ≤ split →
  ∃ dv dt : t A,
    init pl true split = Ok dv ∧ init pl false split = Ok dt ∧
    point_list dv = pl ∧ point_list dt = pl ∧
    (∀ i : nat, i ∈ idcs dv ↔ (i < length pl)%nat ∧ Z.of_nat i mod split = 0) ∧
    (∀ i : nat, i ∈ idcs dt ↔ (i < length pl)%nat ∧ Z.of_nat i mod split ≠ 0) ∧
    (∀ i : nat, ¬ (i ∈ idcs dv ∧ i ∈ idcs dt)) ∧
    NoDup (idcs dv) ∧ NoDup (idcs dt) ∧
    (len dv + len dt = length pl)%nat ∧
    (∀ d, d = dv ∨ d = dt → ∀ k : nat, (k < len d)%nat →
       ∃ (j : nat) (x : A),
         idcs d !! k = Some j ∧ pl !! j = Some x ∧
         getitem d (Z.of_nat k) = Ok x).
Proof.
  intros Hs.
  assert (Hv : ∀ i : nat,
    i ∈ List.filter (selects true split) (seq 0 (length pl))
    ↔ (i < length pl)%nat ∧ Z.of_nat i mod split = 0).
  { intros i. rewrite elem_of_selected, Z.eqb_eq. tauto. }
  assert (Ht : ∀ i : nat,
    i ∈ List.filter (selects false split) (seq 0 (length pl))
    ↔ (i < length pl)%nat ∧ Z.of_nat i mod split ≠ 0).
  { intros i. rewrite elem_of_selected, Z.eqb_neq. tauto. }
  eexists _, _. rewrite !init_ok by lia.
  split; [reflexivity|]. split; [reflexivity|]. simpl.
  split; [done|]. split; [done|].
  split; [exact Hv|]. split; [exact Ht|].
  split.
  { intros i [Hi1 Hi2]. apply Hv in Hi1. apply Ht in Hi2. tauto. }
  split; [apply selected_NoDup|]. split; [apply selected_NoDup|].
  split.
  { unfold len; simpl.
    transitivity (length (seq 0 (length pl))); [|apply length_seq].
    rewrite <- (filter_length (selects true split) (seq 0 (length pl))).
    f_equal. f_equal. apply filter_ext. intros i. unfold selects.
    by destruct (Z.of_nat i mod split =? 0). }
  intros d Hd k Hk.
  destruct (lookup_lt_is_Some_2 (idcs d) k Hk) as [j Hj].
  assert (Hjlt : (j < length pl)%nat).
  { apply list_elem_of_lookup_2 in Hj.
    destruct Hd as [-> | ->]; simpl in Hj;
      [apply Hv in Hj | apply Ht in Hj]; tauto. }
  destruct (lookup_lt_is_Some_2 pl j Hjlt) as [x Hx].
  exists j, x. split; [done|]. split; [done|].
  apply (getitem_selected d k j x Hj).
  by destruct Hd as [-> | ->].
Qed.

End Facts.

(** The split of five points by 2. *)
Lemma split_partition_witness :
  ∃ dv dt : t Z,
    init [10; 11; 12; 13; 14] true 2 = Ok dv ∧
    init [10; 11; 12; 13; 14] false 2 = Ok dt ∧
    idcs dv = [0; 2; 4]%nat ∧ idcs dt = [1; 3]%nat ∧
    getitem dt 1 = Ok 13.
Proof.
  destruct (split_partition [10; 11; 12; 13; 14] 2 ltac:(lia))
    as (dv & dt & Hv & Ht & _).
  exists dv, dt. split; [exact Hv|]. split; [exact Ht|].
  vm_compute in Hv, Ht. injection Hv as <-. injection Ht as <-.
  repeat split; reflexivity.
Defined.

End SplitFacts.

(** ** The cluster builder *)

Module ClusterFacts.
Import Cluster.

Implicit Types (m : gmap Z (gset Z)) (cq : list Z) (ind : Z).

Lemma deref_lookup m k s : m !! k = Some s → deref m k = s.
Proof. intros H. unfold deref. by rewrite lookup_total_alt, H. Qed.

Lemma deref_ext m m' k : m !! k = m' !! k → deref m k = deref m' k.
Proof. intros H. unfold deref. by rewrite !lookup_total_alt, H. Qed.

Lemma deref_insert m r s : deref (<[r := s]> m) r = s.
Proof. apply deref_lookup, lookup_insert_eq. Qed.

Lemma deref_insert_ne m r k s : r ≠ k → deref (<[r := s]> m) k = deref m k.
Proof. intros H. apply deref_ext. by apply lookup_insert_ne. Qed.

Lemma deref_elem_is_Some m r x : x ∈ deref m r → is_Some (m !! r).
Proof.
  unfold deref. rewrite lookup_total_alt.
  destruct (m !! r); [eauto|]. simpl. set_solver.
Qed.

Lemma find_cluster_Some m ind cq r :
  find_cluster m ind cq = Some r → r ∈ cq ∧ ind ∈ deref m r.
Proof.
  induction cq as [|r0 cq IH]; simpl; [done|].
  case_decide as Hin.
  - intros [= <-]. split; [left|done].
  - intros H. destruct (IH H). split; [by right|done].
Qed.

(** On references that are pairwise distinct, updating the object found
    by [find_cluster] is the specification's [merge_first]. *)
Lemma find_merge m ind s cq :
  NoDup cq →
  match find_cluster m ind cq with
  | Some r =>
      merge_first ind s (deref m <$> cq)
      = Some (deref (<[r := deref m r ∪ s]> m) <$> cq)
  | None => merge_first ind s (deref m <$> cq) = None
  end.
Proof.
  induction cq as [|r0 cq IH]; intros Hnd; [done|].
  apply NoDup_cons in Hnd as [Hr0 Hnd].
  rewrite fmap_cons. cbn [find_cluster merge_first].
  case_decide as Hin.
  - rewrite fmap_cons, deref_insert. do 2 f_equal.
    apply list_fmap_ext. intros i k Hk.
    symmetry. apply deref_insert_ne. intros ->.
    apply Hr0. by eapply list_elem_of_lookup_2.
  - specialize (IH Hnd).
    destruct (find_cluster m ind cq) as [r|] eqn:Hf.
    + rewrite IH, fmap_cons. simpl. f_equal. f_equal.
      symmetry. apply deref_insert_ne. intros ->.
      apply Hr0. by apply find_cluster_Some in Hf as [? _].
    + by rewrite IH.
Qed.

(** The loop against the specification, for neighbours not seen before. *)
Lemma add_neighbors_refines m0 image_ids (row : list nat) (ids : list Z) :
  Forall2 (λ idx id, image_ids !! idx = Some id) row ids →
  (∀ id, id ∈ ids → is_Some (m0 !! id)) →
  ∀ m cq (seen : list Z),
    NoDup (seen ++ ids) → NoDup cq →
    (∀ r, r ∈ cq → r ∈ seen) →
    (∀ k, k ∉ cq → m !! k = m0 !! k) →
    ∃ st, add_neighbors image_ids row (m, cq) = Ok st ∧
          clusters_of st = fold_left (spec_add (deref m0)) ids (deref m <$> cq).
Proof.
  induction 1 as [|idx id row ids Hidx _ IH]; intros Hkeys m cq seen Hnd Hcq Hsub Hsame.
  { eexists. split; reflexivity. }
  assert (Hfresh : id ∉ cq).
  { intros Hin. apply Hsub in Hin.
    apply NoDup_app in Hnd as (_ & Hdisj & _).
    apply (Hdisj id Hin). left. }
  destruct (Hkeys id) as [ps Hps]; [left|].
  assert (Hm : m !! id = Some ps) by (by rewrite Hsame).
  assert (Hnd' : NoDup ((seen ++ [id]) ++ ids)).
  { by rewrite <- app_assoc. }
  assert (Hkeys' : ∀ id', id' ∈ ids → is_Some (m0 !! id')).
  { intros id' Hin. apply Hkeys. by right. }
  cbn [add_neighbors]. unfold add_neighbor. rewrite Hidx, Hm.
  pose proof (find_merge m id ps cq Hcq) as Hfm.
  destruct (find_cluster m id cq) as [r|] eqn:Hf; simpl.
  - apply find_cluster_Some in Hf as [Hr _].
    destruct (IH Hkeys' (<[r := deref m r ∪ ps]> m) cq (seen ++ [id]))
      as (st & Hst & Hcl); [done|done| | |].
    { intros r' Hr'. apply elem_of_app. left. by apply Hsub. }
    { intros k Hk. rewrite lookup_insert_ne; [by apply Hsame|].
      by intros ->. }
    exists st. split; [done|]. rewrite Hcl. f_equal.
    unfold spec_add. rewrite (deref_lookup m0 id ps Hps). by rewrite Hfm.
  - destruct (IH Hkeys' m (cq ++ [id]) (seen ++ [id]))
      as (st & Hst & Hcl); [done| | | |].
    { apply NoDup_app. split; [done|]. split; [|apply NoDup_singleton].
      intros x Hx ->%list_elem_of_singleton. done. }
    { intros r' [Hr'| ->%list_elem_of_singleton]%elem_of_app;
        apply elem_of_app; [left; by apply Hsub | right; left]. }
    { intros k Hk. apply Hsame. intros Hin. apply Hk, elem_of_app. by left. }
    exists st. split; [done|]. rewrite Hcl. f_equal.
    unfold spec_add. rewrite (deref_lookup m0 id ps Hps), Hfm.
    rewrite fmap_app. simpl. by rewrite (deref_lookup m id ps Hm).
Qed.

(** C2: on a ranked list of distinct neighbours that all have an entry in
    the co-visibility map, the builder returns the clusters of the
    specification: the first neighbour seeds the first cluster, every later
    neighbour is merged into the first cluster that holds its id, or seeds
    a new cluster at the end. *)
Theorem build_clusters_spec m image_ids (row : list nat) (ids : list Z) :
  Forall2 (λ idx id, image_ids !! idx = Some id) row ids →
  ids ≠ [] → NoDup ids →
  (∀ id, id ∈ ids → is_Some (m !! id)) →
  ∃ st, build_clusters image_ids row m = Ok st ∧
        clusters_of st = spec_clusters (deref m) ids.
Proof.
  intros Hrow Hne Hnd Hkeys.
  destruct Hrow as [|idx0 i0 row ids Hidx0 Hrow]; [done|].
  destruct (Hkeys i0) as [s0 Hs0]; [left|].
  unfold build_clusters. rewrite Hidx0, Hs0.
  destruct (add_neighbors_refines m image_ids row ids Hrow) with
    (m := m) (cq := [i0]) (seen := [i0]) as (st & Hst & Hcl).
  - intros id Hid. apply Hkeys. by right.
  - done.
  - apply NoDup_singleton.
  - done.
  - done.
  - exists st. split; [done|]. by rewrite Hcl.
Qed.

(** Four images: 1 and 2 share a point, 2 and 4 share a point, 3 is on
    its own. *)
Lemma build_clusters_spec_witness :
  let m : gmap Z (gset Z) :=
    <[1 := {[1; 2]}]> (<[2 := {[1; 2; 4]}]> (<[3 := {[3]}]>
      (<[4 := {[2; 4]}]> ∅))) in
  ∃ st, build_clusters [1; 2; 3; 4] [0; 2; 1; 3]%nat m = Ok st ∧
        clusters_of st = spec_clusters (deref m) [1; 3; 2; 4].
Proof.
  intros m.
  apply (build_clusters_spec m [1; 2; 3; 4] [0; 2; 1; 3]%nat [1; 3; 2; 4]).
  - repeat constructor.
  - done.
  - apply (bool_decide_unpack _). vm_compute. exact I.
  - intros id Hid. apply (bool_decide_unpack _).
    repeat (apply elem_of_cons in Hid as [->|Hid]);
      [vm_compute; exact I ..|].
    by apply elem_of_nil in Hid.
Defined.

Lemma union_inv_final m0 (seen : list Z) st :
  union_inv m0 seen st → ⋃ (clusters_of st) = ⋃ (deref m0 <$> seen).
Proof.
  intros (_ & _ & Hup & Hsub & Hcov). unfold clusters_of.
  apply set_eq. intros x. rewrite !elem_of_union_list. split.
  - intros (X & HX & Hx). apply list_elem_of_fmap in HX as (r & -> & Hr).
    apply Hup in Hx. apply elem_of_union in Hx as [Hx|Hx].
    + exists (deref m0 r). split; [|done].
      apply list_elem_of_fmap. exists r. split; [done|]. by apply Hsub.
    + by apply elem_of_union_list in Hx.
  - intros (X & HX & Hx). apply list_elem_of_fmap in HX as (n & -> & Hn).
    apply (Hcov n Hn) in Hx. by apply elem_of_union_list in Hx.
Qed.

Lemma union_list_mono_fmap (f g : Z → gset Z) (l : list Z) :
  (∀ k, f k ⊆ g k) → ⋃ (f <$> l) ⊆ ⋃ (g <$> l).
Proof.
  intros Hfg x. rewrite !elem_of_union_list.
  intros (X & HX & Hx). apply list_elem_of_fmap in HX as (k & -> & Hk).
  exists (g k). split; [|by apply Hfg].
  apply list_elem_of_fmap. eauto.
Qed.

Lemma union_inv_step m0 image_ids (seen : list Z) st (idx : nat) (id : Z) :
  image_ids !! idx = Some id → is_Some (m0 !! id) →
  union_inv m0 seen st →
  ∃ st', add_neighbor image_ids st idx = Ok st' ∧
         union_inv m0 (seen ++ [id]) st'.
Proof.
  destruct st as [m cq].
  intros Hidx Hkey (Hdom & Hlow & Hup & Hsub & Hcov). simpl in *.
  apply Hdom in Hkey as [ps Hps].
  pose proof (deref_lookup m id ps Hps) as Hd.
  assert (Hgrow : ⋃ (deref m0 <$> seen) ⊆ ⋃ (deref m0 <$> seen ++ [id])).
  { rewrite fmap_app, union_list_app. set_solver. }
  assert (Hnew : deref m0 id ⊆ ⋃ (deref m0 <$> seen ++ [id])).
  { rewrite fmap_app, union_list_app. simpl. set_solver. }
  unfold add_neighbor. rewrite Hidx, Hps.
  destruct (find_cluster m id cq) as [r|] eqn:Hf.
  - apply find_cluster_Some in Hf as [Hr Hin].
    eexists. split; [reflexivity|].
    assert (Hmono : ∀ k, deref m k ⊆ deref (<[r := deref m r ∪ ps]> m) k).
    { intros k. destruct (decide (r = k)) as [<-|Hne].
      - rewrite deref_insert. set_solver.
      - by rewrite deref_insert_ne. }
    repeat split; cbn [fst snd].
    + intros Hk. apply Hdom. destruct (decide (r = k)) as [<-|Hne].
      * by eapply deref_elem_is_Some.
      * by rewrite lookup_insert_ne in Hk.
    + intros Hk. apply Hdom in Hk. destruct (decide (r = k)) as [<-|Hne].
      * rewrite lookup_insert_eq. eauto.
      * by rewrite lookup_insert_ne.
    + intros k. etrans; [apply Hlow|apply Hmono].
    + intros k. destruct (decide (r = k)) as [<-|Hne].
      * rewrite deref_insert. rewrite <- Hd.
        pose proof (Hup r). pose proof (Hup id). set_solver.
      * rewrite deref_insert_ne by done. pose proof (Hup k). set_solver.
    + intros r' Hr'. apply elem_of_app. left. by apply Hsub.
    + intros n [Hn| ->%list_elem_of_singleton]%elem_of_app.
      * etrans; [by apply Hcov|]. by apply union_list_mono_fmap.
      * intros x Hx. apply elem_of_union_list.
        exists (deref (<[r := deref m r ∪ ps]> m) r).
        split; [apply list_elem_of_fmap; eauto|].
        rewrite deref_insert. apply Hlow in Hx. set_solver.
  - eexists. split; [reflexivity|].
    repeat split; cbn [fst snd]; try done.
    + by apply Hdom.
    + by apply Hdom.
    + intros k. pose proof (Hup k). set_solver.
    + intros r' [Hr'| ->%list_elem_of_singleton]%elem_of_app;
        apply elem_of_app; [left; by apply Hsub | right; left].
    + intros n Hn. rewrite fmap_app, union_list_app.
      apply elem_of_app in Hn as [Hn| ->%list_elem_of_singleton].
      * pose proof (Hcov n Hn). set_solver.
      * simpl. pose proof (Hlow id). set_solver.
Qed.

Lemma union_inv_loop m0 image_ids (row : list nat) (ids : list Z) :
  Forall2 (λ idx id, image_ids !! idx = Some id) row ids →
  (∀ id, id ∈ ids → is_Some (m0 !! id)) →
  ∀ (seen : list Z) st,
    union_inv m0 seen st →
    ∃ st', add_neighbors image_ids row st = Ok st' ∧
           union_inv m0 (seen ++ ids) st'.
Proof.
  induction 1 as [|idx id row ids Hidx _ IH]; intros Hkeys seen st Hinv.
  { exists st. rewrite app_nil_r. by split. }
  destruct (union_inv_step m0 image_ids seen st idx id Hidx)
    as (st1 & Hst1 & Hinv1); [apply Hkeys; left|done|].
  destruct (IH (λ id' Hin, Hkeys id' (list_elem_of_further _ _ _ Hin))
              (seen ++ [id]) st1 Hinv1) as (st' & Hst' & Hinv').
  exists st'. cbn [add_neighbors]. rewrite Hst1. simpl.
  split; [done|]. by rewrite <- app_assoc in Hinv'.
Qed.

(** C3: whatever the ranked list (repeated neighbours included), as long
    as every neighbour has an entry in the co-visibility map, the union of
    the clusters the builder returns is the union of the co-visibility sets
    the map held for these neighbours when the builder started. *)
Theorem build_clusters_union m image_ids (row : list nat) (ids : list Z) :
  Forall2 (λ idx id, image_ids !! idx = Some id) row ids →
  ids ≠ [] →
  (∀ id, id ∈ ids → is_Some (m !! id)) →
  ∃ st, build_clusters image_ids row m = Ok st ∧
        ⋃ (clusters_of st) = ⋃ (deref m <$> ids).
Proof.
  intros Hrow Hne Hkeys.
  destruct Hrow as [|idx0 i0 row ids Hidx0 Hrow]; [done|].
  destruct (Hkeys i0) as [s0 Hs0]; [left|].
  unfold build_clusters. rewrite Hidx0, Hs0.
  destruct (union_inv_loop m image_ids row ids Hrow) with
    (seen := [i0]) (st := (m, [i0])) as (st & Hst & Hinv).
  - intros id Hid. apply Hkeys. by right.
  - repeat split; simpl; try done.
    + set_solver.
    + intros n ->%list_elem_of_singleton. set_solver.
  - exists st. split; [done|]. by apply union_inv_final in Hinv.
Qed.

(** The same four images, with neighbour 1 ranked twice. *)
Lemma build_clusters_union_witness :
  let m : gmap Z (gset Z) :=
    <[1 := {[1; 2]}]> (<[2 := {[1; 2; 4]}]> (<[3 := {[3]}]>
      (<[4 := {[2; 4]}]> ∅))) in
  ∃ st, build_clusters [1; 2; 3; 4] [0; 2; 0; 3]%nat m = Ok st ∧
        ⋃ (clusters_of st) = ⋃ (deref m <$> [1; 3; 1; 4]).
Proof.
  intros m.
  apply (build_clusters_union m [1; 2; 3; 4] [0; 2; 0; 3]%nat [1; 3; 1; 4]).
  - repeat constructor.
  - done.
  - intros id Hid. apply (bool_decide_unpack _).
    repeat (apply elem_of_cons in Hid as [->|Hid]);
      [vm_compute; exact I ..|].
    by apply elem_of_nil in Hid.
Defined.

(** The clusters are the set objects of [img_cluster]: a neighbour that is
    ranked twice can put one object into [cluster_query] and later merge
    it, already grown, into another cluster.  Here image 2 seeds the second
    cluster, image 4 is merged into it, and the second occurrence of 2
    carries the points of 4 into the first cluster; the specification
    merges the co-visibility set of 2 only. *)
Example repeated_neighbor_shares_object :
  let m : gmap Z (gset Z) :=
    <[1 := {[1; 3]}]> (<[2 := {[2; 3; 4]}]> (<[3 := {[1; 2; 3]}]>
      (<[4 := {[2; 4; 5]}]> (<[5 := {[4; 5]}]> ∅)))) in
  ∃ st, build_clusters [1; 2; 3; 4; 5] [0; 1; 2; 3; 1]%nat m = Ok st ∧
        clusters_of st = [{[1; 2; 3; 4; 5]}; {[2; 3; 4; 5]}] ∧
        spec_clusters (deref m) [1; 2; 3; 4; 2]
        = [{[1; 2; 3; 4]}; {[2; 3; 4; 5]}].
Proof.
  intros m. eexists. split; [vm_compute; reflexivity|].
  split; apply (bool_decide_unpack _); vm_compute; exact I.
Qed.

(** [img_cluster] keeps the merged sets: after a query with the neighbours
    1, 3, 2, 4 the entry of image 1 has grown from {1, 2} to {1, 2, 4}, and
    the next query that ranks image 1 starts from the grown set. *)
Example img_cluster_updated_in_place :
  let m : gmap Z (gset Z) :=
    <[1 := {[1; 2]}]> (<[2 := {[1; 2; 4]}]> (<[3 := {[3]}]>
      (<[4 := {[2; 4]}]> ∅))) in
  ∃ st1 st2,
    build_clusters [1; 2; 3; 4] [0; 2; 1; 3]%nat m = Ok st1 ∧
    build_clusters [1; 2; 3; 4] [0]%nat st1.1 = Ok st2 ∧
    deref m 1 = {[1; 2]} ∧
    clusters_of st2 = [{[1; 2; 4]}].
Proof.
  intros m. eexists _, _.
  split; [vm_compute; reflexivity|]. split; [vm_compute; reflexivity|].
  split; apply (bool_decide_unpack _); vm_compute; exact I.
Qed.

End ClusterFacts.

(** ** Self-match removal *)

Module NeighborFacts.
Import Neighbors.

Lemma cut_loop_spec image_ids (id0 k : Z) (cands lst : list nat) (j : Z) :
  Forall (λ idx, is_Some (image_ids !! idx)) cands →
  0 ≤ j < k →
  cut_loop image_ids (Z.abs id0) k cands lst j
  = Ok (lst ++ take (Z.to_nat (k - j))
                 (List.filter (λ idx, negb (refers_to image_ids id0 idx)) cands)).
Proof.
  intros Hin. revert lst j.
  induction Hin as [|idx cands [id Hid] _ IH]; intros lst j Hj; simpl.
  { by rewrite take_nil, app_nil_r. }
  unfold refers_to at 1. rewrite Hid.
  destruct (Z.abs id =? Z.abs id0) eqn:Hself; simpl.
  - destruct (Z.geb_spec j k); [lia|]. by apply IH.
  - replace (Z.to_nat (k - j)) with (S (Z.to_nat (k - (j + 1)))) by lia.
    simpl. destruct (Z.geb_spec (j + 1) k).
    + replace (Z.to_nat (k - (j + 1))) with 0%nat by lia.
      by rewrite take_0.
    + rewrite IH by lia. by rewrite <- app_assoc.
Qed.

(** C4, as the code has it: the image of the top-ranked candidate is taken
    to be the query image.  For [n_neighbors >= 1] the row is cut to the
    first [n_neighbors] candidates, in rank order, that do not refer to the
    image of the top-ranked candidate, and no candidate of the result
    refers to that image. *)
Theorem cut_row_top image_ids (k : Z) (top : nat) (cands : list nat) (id0 : Z) :
  1 ≤ k →
  image_ids !! top = Some id0 →
  Forall (λ idx, is_Some (image_ids !! idx)) cands →
  cut_row image_ids k (top :: cands)
  = Ok (spec_cut image_ids id0 (Z.to_nat k) (top :: cands)) ∧
  Forall (λ idx, refers_to image_ids id0 idx = false)
    (spec_cut image_ids id0 (Z.to_nat k) (top :: cands)).
Proof.
  intros Hk Htop Hin. split.
  - unfold cut_row, spec_cut. rewrite Htop.
    rewrite cut_loop_spec by (done || lia). simpl.
    unfold refers_to at 2. rewrite Htop, Z.eqb_refl. simpl.
    by rewrite Z.sub_0_r.
  - unfold spec_cut. apply Forall_take, Forall_forall.
    intros idx Hidx%list_elem_of_In%filter_In.
    by destruct Hidx as [_ ?%negb_true_iff].
Qed.

(** A row of four candidates, cut to two neighbours. *)
Lemma cut_row_top_witness :
  cut_row [10; 20; -10; 30] 2 [0; 2; 1; 3]%nat
  = Ok (spec_cut [10; 20; -10; 30] 10 2 [0; 2; 1; 3]%nat) ∧
  Forall (λ idx, refers_to [10; 20; -10; 30] 10 idx = false)
    (spec_cut [10; 20; -10; 30] 10 2 [0; 2; 1; 3]%nat).
Proof.
  apply (cut_row_top [10; 20; -10; 30] 2 0%nat [2; 1; 3]%nat 10).
  - lia.
  - reflexivity.
  - repeat constructor; by eexists.
Defined.

(** The claim read against the query image proper: image 20 is the query,
    the nearest-neighbour search ranks image 10 first.  The code drops the
    top-ranked candidate and keeps candidate 1, which is the query image;
    dropping every candidate that refers to the query would give [0; 2]. *)
Lemma cut_row_keeps_query :
  cut_row [10; 20; 30] 2 [0; 1; 2]%nat = Ok [1; 2]%nat ∧
  refers_to [10; 20; 30] 20 1 = true ∧
  spec_cut [10; 20; 30] 20 2 [0; 1; 2]%nat = [0; 2]%nat.
Proof. repeat split; reflexivity. Qed.

(** With [n_neighbors = 0] the test after the append lets one candidate
    through. *)
Example cut_row_zero_neighbors :
  cut_row [10; 20; 30] 0 [0; 1; 2]%nat = Ok [1]%nat.
Proof. reflexivity. Qed.

End NeighborFacts.

(** ** Local matching *)

Module MatchingFacts.
Import Matching Demo.

Lemma foldM_concat {A S : Type} (f : S → A → res S) (ls : list (list A)) (s : S) :
  foldM (λ s l, foldM f l s) ls s = foldM f (concat ls) s.
Proof.
  revert s. induction ls as [|l ls IH]; intros s; simpl; [done|].
  revert s. induction l as [|x l IHl]; intros s; simpl; [apply IH|].
  destruct (f s x); simpl; [apply IHl|done].
Qed.

Section DoubleMatching.
Context {D : Type}.
Variable matcher : list D → list D → list (nat * nat).

(** The half of C5 that holds: bidirectional matching only drops forward
    matches. *)
Lemma double_matching_subset (query_desc neighbor_desc : list D) (m : nat * nat) :
  m ∈ double_matching matcher query_desc neighbor_desc →
  m ∈ matcher query_desc neighbor_desc.
Proof.
  unfold double_matching.
  destruct (_ || _); [by intros ?%elem_of_nil|].
  intros Hm%list_elem_of_In%filter_In. apply list_elem_of_In, Hm.
Qed.

(** Every forward match that the reverse matching confirms is kept. *)
Lemma mutual_in_double (query_desc neighbor_desc : list D) (m : nat * nat) :
  m ∈ mutual_matching matcher query_desc neighbor_desc →
  m ∈ double_matching matcher query_desc neighbor_desc.
Proof.
  unfold mutual_matching, double_matching.
  intros [Hf Hr%bool_decide_eq_true]%list_elem_of_In%filter_In.
  destruct (matcher query_desc neighbor_desc) as [|f fs] eqn:Hfwd; [done|].
  destruct (matcher neighbor_desc query_desc) as [|r rs] eqn:Hrev.
  { by apply elem_of_nil in Hr. }
  cbn [length Nat.eqb orb].
  apply list_elem_of_In, filter_In. split; [done|].
  apply bool_decide_eq_true, list_elem_of_fmap.
  by exists (m.2, m.1).
Qed.
End DoubleMatching.

(** C5 at two query descriptors (0 and 3) and two database descriptors (2
    and -5), ratio threshold 3/4.  Forward, both queries match database
    descriptor 0; in reverse, database descriptor 0 matches query 1 and
    database descriptor 1 matches query 0.  [double_matching] keeps the
    forward match (0, 0) because query 0 is the target of some reverse
    match, though the reverse match of database descriptor 0 is query 1. *)
Theorem double_matching_keeps_one_sided :
  let query_desc := [[0]; [3]] in
  let neighbor_desc := [[2]; [-5]] in
  nn_match 3 4 query_desc neighbor_desc = [(0, 0); (1, 0)]%nat ∧
  nn_match 3 4 neighbor_desc query_desc = [(0, 1); (1, 0)]%nat ∧
  double_matching (nn_match 3 4) query_desc neighbor_desc
  = [(0, 0); (1, 0)]%nat ∧
  mutual_matching (nn_match 3 4) query_desc neighbor_desc = [(1, 0)]%nat.
Proof. repeat split; reflexivity. Qed.

Section Refilter.
Context {D K XYZ : Type}.
Variable matcher : list D → list D → list (nat * nat).
Variable to_unit_vector : list D → list D.
Variable descriptors_from_colmap_db : Z → res (list D).
Variable neural_descriptors : Z → list bool → res (list D).

Abbreviation match_image :=
  (@match_image D K XYZ matcher to_unit_vector descriptors_from_colmap_db
     neural_descriptors).
Abbreviation contribution :=
  (@contribution D XYZ matcher to_unit_vector descriptors_from_colmap_db
     neural_descriptors).

Lemma match_image_contribution (c : @config XYZ) (query_desc : list D)
    (query_kpts : list K) (a : @acc D K) (img : Z) :
  refilter c = true →
  match_image c query_desc query_kpts a img
  = do o <- contribution c query_desc img; Ok (add_contribution a o).
Proof.
  intros Hre. unfold Matching.match_image, Matching.contribution, is_self.
  destruct (verify c && (Z.abs img =? Z.abs (query_self c))); [done|].
  destruct (dict_get (images c) (Z.abs img)) as [im|]; simpl; [|done].
  destruct (load_desc _ _ _ c img (valid_mask im)) as [dd|]; simpl; [|done].
  destruct (Nat.ltb 0 (length (run_matcher matcher c query_desc dd)));
    [|done].
  rewrite Hre.
  destruct (np_take (select (valid_mask im) (point3D_ids im)) _)
    as [p|]; simpl; [|done].
  by destruct (np_take dd _) as [d|].
Qed.

(** With refiltering the loop over the images only fills [pt_ids_all] and
    [data_descs], with what each image contributes. *)
Lemma foldM_match_image (c : @config XYZ) (query_desc : list D)
    (query_kpts : list K) (imgs : list Z) (a : @acc D K) :
  refilter c = true →
  foldM (match_image c query_desc query_kpts) imgs a
  = do cs <- mapM (contribution c query_desc) imgs;
    Ok (mk_acc (matched_kpts_cv a) (matched_pts a)
          (pt_ids_all a ++ (fst <$> omap id cs))
          (data_descs a ++ (snd <$> omap id cs))).
Proof.
  intros Hre. revert a.
  induction imgs as [|img imgs IH]; intros a; cbn [foldM mapM].
  { simpl. rewrite !app_nil_r. by destruct a. }
  rewrite match_image_contribution by done.
  destruct (contribution c query_desc img) as [o|]; simpl; [|done].
  rewrite IH. destruct (mapM _ imgs) as [cs|]; simpl; [|done].
  destruct o as [[p d]|]; simpl; [|done].
  by rewrite <- !app_assoc.
Qed.

(** C6, as the code has it: with refiltering, [match_local] matches the
    query against every member image on its own, pools the database
    descriptors (and 3D points) these matches picked, over all images of
    all clusters, and, if at least two images contributed, matches the
    query once against the pool; the correspondences returned are the
    survivors of that pass.  With fewer than two contributing images
    nothing is returned. *)
Theorem match_local_refilter (c : @config XYZ) (query_desc : list D)
    (query_kpts : list K) (cluster_query : list (list Z)) :
  refilter c = true →
  match_local matcher to_unit_vector descriptors_from_colmap_db
    neural_descriptors c query_desc query_kpts cluster_query
  = let query_desc :=
      if approx c then to_unit_vector query_desc else query_desc in
    do gt <- ground_truth c;
    do r <- two_stage matcher to_unit_vector descriptors_from_colmap_db
              neural_descriptors c query_desc query_kpts gt cluster_query;
    lookup_points c r.
Proof.
  intros Hre. unfold match_local, two_stage. cbv zeta.
  destruct (ground_truth c) as [gt|]; simpl; [|done].
  rewrite foldM_concat, foldM_match_image by done.
  destruct (mapM _ (concat cluster_query)) as [cs|]; simpl; [|done].
  rewrite Hre. unfold refilter_stage. simpl.
  rewrite !length_fmap.
  destruct (omap id cs) as [|x [|y picked]]; simpl; try done.
Qed.
End Refilter.

(** The example data: no verification, colmap descriptors, refiltering. *)
Lemma match_local_refilter_witness :
  match_local (nn_match 3 4) id demo_db no_network
    demo_config [[40]; [9]] ["k0"; "k1"] [[1; 2]]
  = Ok (mk_result [1; 1] ["k0"; "k1"] 0 0).
Proof.
  rewrite (match_local_refilter (nn_match 3 4) id demo_db
             no_network demo_config
             [[40]; [9]] ["k0"; "k1"] [[1; 2]]) by reflexivity.
  vm_compute. reflexivity.
Defined.

(** C6 as stated fails here.  On its own, image 1 matches query 1 only
    (for query 0, descriptors 13 and 10 are too close to tell apart), so
    descriptor 13 never reaches the pool; against the pool 10, 1000, 1000
    query 0 matches point 101.  One pass over all four candidates rejects
    that match. *)
Lemma refilter_pool_is_prematched :
  match_local (nn_match 3 4) id demo_db no_network
    demo_config [[40]; [9]] ["k0"; "k1"] [[1; 2]]
  = Ok (mk_result [1; 1] ["k0"; "k1"] 0 0) ∧
  spec_refilter (nn_match 3 4) id demo_db no_network
    demo_config [[40]; [9]] ["k0"; "k1"] [[1; 2]]
  = Ok (["k1"], [101]).
Proof. split; vm_compute; reflexivity. Qed.

(** A cluster in which only one image yields matches returns nothing,
    whatever the single pass over its candidates would keep. *)
Example refilter_needs_two_images :
  match_local (nn_match 3 4) id demo_db no_network
    demo_config [[40]; [9]] ["k0"; "k1"] [[1]]
  = Ok (mk_result [] [] 0 0) ∧
  spec_refilter (nn_match 3 4) id demo_db no_network
    demo_config [[40]; [9]] ["k0"; "k1"] [[1]]
  = Ok (["k1"], [101]).
Proof. split; vm_compute; reflexivity. Qed.

End MatchingFacts.

(** ** The per-query loop *)

Module PipelineFacts.
Import Matching Pipeline.

Ltac inv_bind H :=
  repeat lazymatch type of H with
  | bind _ _ = Ok _ =>
      let x := fresh "x" in let Hx := fresh "Hx" in
      apply bind_ok in H as (x & Hx & H)
  end.

Section Facts.
Context {D K XYZ CM RV TV Pos Quat : Type}.
Variable matcher : list D → list D → list (nat * nat).
Variable to_unit_vector : list D → list D.
Variable descriptors_from_colmap_db : Z → res (list D).
Variable neural_descriptors : Z → list bool → res (list D).
Variable solvePnPRansac :
  list XYZ → list K → CM → float → bool * RV * TV * option (list nat).
Variable solvePnP :
  list XYZ → list K → CM → float → RV → TV → bool * RV * TV.
Variable pose_of : RV → TV → Pos * Quat.
Variable pose_error : image → Pos → Quat → float * float.
Variable rotate_position : Pos → Quat → Pos.
Variable query_path_of : string → string.
Variable fix_augmented : string → string.

Abbreviation solve_pose := (@solve_pose K XYZ CM RV TV Pos Quat
  solvePnPRansac solvePnP pose_of).
Abbreviation front := (@front D K XYZ CM Pos Quat matcher to_unit_vector
  descriptors_from_colmap_db neural_descriptors query_path_of).
Abbreviation intrinsics := (@intrinsics XYZ CM fix_augmented).
Abbreviation report := (@report D K XYZ CM Pos Quat pose_error
  rotate_position).
Abbreviation back := (@back D K XYZ CM RV TV Pos Quat solvePnPRansac
  solvePnP pose_of pose_error rotate_position fix_augmented).
Abbreviation query_body := (@query_body D K XYZ CM RV TV Pos Quat matcher
  to_unit_vector descriptors_from_colmap_db neural_descriptors
  solvePnPRansac solvePnP pose_of pose_error rotate_position query_path_of
  fix_augmented).
Abbreviation local_matching := (@local_matching D K XYZ CM RV TV Pos Quat
  matcher to_unit_vector descriptors_from_colmap_db neural_descriptors
  solvePnPRansac solvePnP pose_of pose_error rotate_position query_path_of
  fix_augmented).

Lemma solve_pose_too_few (min_inliers : Z) (xyz : list XYZ) (kps : list K)
    (camera_matrix : CM) (dist : float) :
  (length xyz < 5)%nat →
  solve_pose min_inliers xyz kps camera_matrix dist
  = Ok (mk_solved false None 0 0%float []).
Proof.
  intros Hlen. unfold Pipeline.solve_pose.
  destruct (Nat.ltb_spec 4 (length xyz)); [lia|done].
Qed.

(** C1: with fewer than 5 correspondences the pose step calls neither
    RANSAC nor the refinement and leaves no pose; with 5 or more, RANSAC is
    called once, and the refinement runs, and a pose is produced, exactly
    when RANSAC succeeded with at least [min_inliers] inliers; otherwise
    the step fails without a pose. *)
Theorem solve_pose_gates (min_inliers : Z) (xyz : list XYZ) (kps : list K)
    (camera_matrix : CM) (dist : float) :
  ((length xyz < 5)%nat →
   solve_pose min_inliers xyz kps camera_matrix dist
   = Ok (mk_solved false None 0 0%float [])) ∧
  (∀ s, (5 ≤ length xyz)%nat →
     solve_pose min_inliers xyz kps camera_matrix dist = Ok s →
     ∃ ok R_vec translation inliers,
       solvePnPRansac xyz kps camera_matrix dist
       = (ok, R_vec, translation, inliers) ∧
       num_inliers s = Z.of_nat (length (default [] inliers)) ∧
       if ok && (min_inliers <=? num_inliers s)
       then calls s = [CallRansac; CallRefine] ∧ is_Some (new_pose s)
       else calls s = [CallRansac] ∧ new_pose s = None ∧ success s = false).
Proof.
  split; [apply solve_pose_too_few|].
  intros s Hlen Hs. unfold Pipeline.solve_pose in Hs.
  destruct (Nat.ltb_spec 4 (length xyz)); [|lia].
  destruct (solvePnPRansac xyz kps camera_matrix dist)
    as [[[ok R_vec] translation] inliers].
  exists ok, R_vec, translation, inliers. split; [done|].
  apply bind_ok in Hs as ([n rate] & Hstats & Hs).
  assert (Hn : n = Z.of_nat (length (default [] inliers))).
  { destruct inliers as [inls|]; simpl in *.
    - apply bind_ok in Hstats as (r & _ & [= <- _]). done.
    - by injection Hstats as <- _. }
  destruct (ok && (min_inliers <=? n)) eqn:Hacc.
  - inv_bind Hs.
    destruct (solvePnP _ _ _ _ _ _) as [[ret R_vec'] t].
    injection Hs as <-. simpl. rewrite Hacc. by eauto.
  - injection Hs as <-. simpl. by rewrite Hacc.
Qed.

(** [front] leaves [cm], [position], [quat] and the output file alone,
    and in verification mode it has already read the query's own image. *)
Lemma front_ok (a : args) (e : @env XYZ CM) (st st1 : @state CM Pos Quat)
    (query_id : nat) (q : @query D K) (r : @Matching.result K XYZ)
    (path : string) :
  front a e st query_id q = Ok (st1, r, path) →
  cm st1 = cm st ∧ pose st1 = pose st ∧ out_file st1 = out_file st ∧
  inlier_nums st1 = inlier_nums st ∧ errors st1 = errors st ∧
  (verify a = true →
   ∃ qid im, item (query_image_ids e) query_id = Ok qid ∧
             dict_get (images e) (Z.abs qid) = Ok im).
Proof.
  intros H. unfold Pipeline.front in H. inv_bind H.
  injection H as <- _ _. simpl. repeat split.
  intros Hv. unfold query_path_at in *. rewrite Hv in *.
  inv_bind Hx. eauto.
Qed.

Lemma intrinsics_raises (e : @env XYZ CM) (cm0 : option (CM * float))
    (path : string) :
  intrinsics e cm0 path = Raise UnboundLocalError ∨
  ∃ i, intrinsics e cm0 path = Ok i.
Proof.
  unfold Pipeline.intrinsics.
  destruct (camera_matrices e !! fix_augmented path); [right; by eexists|].
  destruct cm0; [right; by eexists|by left].
Qed.

(** The median is used for the camera matrix only: the distortion
    coefficient is read from [cm], the entry of the last query whose
    intrinsics were known. *)
Lemma intrinsics_fallback (e : @env XYZ CM) (entry : CM * float)
    (path : string) :
  camera_matrices e !! fix_augmented path = None →
  intrinsics e (Some entry) path = Ok (backfall_cm e, entry.2, Some entry).
Proof. intros H. unfold Pipeline.intrinsics. by rewrite H. Qed.

Lemma intrinsics_unbound (e : @env XYZ CM) (path : string) :
  camera_matrices e !! fix_augmented path = None →
  intrinsics e None path = Raise UnboundLocalError.
Proof. intros H. unfold Pipeline.intrinsics. by rewrite H. Qed.

(** In verification mode a query that yields fewer than 5
    correspondences, and comes before any query that was localised, reads
    [quat] before it was ever assigned. *)
Lemma verify_failure_raises (a : args) (e : @env XYZ CM)
    (st st1 : @state CM Pos Quat) (query_id : nat) (q : @query D K)
    (r : @Matching.result K XYZ) (path : string) :
  verify a = true → pose st = None →
  front a e st query_id q = Ok (st1, r, path) →
  (length (matched_pts_xyz r) < 5)%nat →
  query_body a e st query_id q = Raise UnboundLocalError.
Proof.
  intros Hv Hpose Hfront Hlen.
  destruct (front_ok a e st st1 query_id q r path Hfront)
    as (_ & Hp & _ & _ & _ & Hq).
  destruct (Hq Hv) as (qid & im & Hqid & Him).
  unfold Pipeline.query_body. rewrite Hfront. simpl.
  unfold Pipeline.back.
  destruct (intrinsics_raises e (cm st1) path) as [->|[[[cmx dist] cm1] ->]];
    [done|]. simpl.
  rewrite solve_pose_too_few by done. simpl.
  unfold Pipeline.report. simpl. rewrite Hv, Hqid. simpl. rewrite Him. simpl.
  by rewrite Hp, Hpose.
Qed.

(** C7 in verification mode: when the first query of a batch ends with no
    correspondence (or fewer than 5), the whole run ends with an
    [UnboundLocalError]; the remaining queries are not processed. *)
Theorem verify_failure_is_fatal (a : args) (e : @env XYZ CM)
    (img_cluster : gmap Z (gset Z)) (q : @query D K)
    (rest : list (@query D K)) (st1 : @state CM Pos Quat)
    (r : @Matching.result K XYZ) (path : string) :
  verify a = true →
  front a e (init_state img_cluster) 0 q = Ok (st1, r, path) →
  (length (matched_pts_xyz r) < 5)%nat →
  local_matching a e img_cluster (q :: rest) = Raise UnboundLocalError.
Proof.
  intros Hv Hfront Hlen. unfold Pipeline.local_matching. cbn [run_from].
  by rewrite (verify_failure_raises a e _ st1 0 q r path).
Qed.

(** Outside verification mode the claim of C7 holds: a query with fewer
    than 5 correspondences writes no line, records zero inliers, and the
    loop goes on. *)
Lemma failure_skips_query (a : args) (e : @env XYZ CM)
    (st st1 : @state CM Pos Quat) (query_id : nat) (q : @query D K)
    (r : @Matching.result K XYZ) (path : string)
    (i : CM * float * option (CM * float)) :
  verify a = false →
  front a e st query_id q = Ok (st1, r, path) →
  (length (matched_pts_xyz r) < 5)%nat →
  intrinsics e (cm st1) path = Ok i →
  ∃ st', query_body a e st query_id q = Ok st' ∧
         out_file st' = out_file st ∧
         inlier_nums st' = inlier_nums st ++ [0].
Proof.
  intros Hv Hfront Hlen Hi.
  destruct (front_ok a e st st1 query_id q r path Hfront)
    as (_ & _ & Ho & Hn & _ & _).
  unfold Pipeline.query_body. rewrite Hfront. simpl.
  unfold Pipeline.back. rewrite Hi. simpl. destruct i as [[cmx dist] cm1].
  rewrite solve_pose_too_few by done. simpl.
  unfold Pipeline.report. simpl. rewrite Hv.
  eexists. split; [reflexivity|]. simpl. by rewrite Ho, Hn.
Qed.

(** C8 on the first query of a batch: when its path has no entry in
    [camera_matrices], reading [cm['rad_dist']] ends the whole run with an
    [UnboundLocalError]. *)
Theorem missing_intrinsics_is_fatal (a : args) (e : @env XYZ CM)
    (img_cluster : gmap Z (gset Z)) (q : @query D K)
    (rest : list (@query D K)) (st1 : @state CM Pos Quat)
    (r : @Matching.result K XYZ) (path : string) :
  front a e (init_state img_cluster) 0 q = Ok (st1, r, path) →
  camera_matrices e !! fix_augmented path = None →
  local_matching a e img_cluster (q :: rest) = Raise UnboundLocalError.
Proof.
  intros Hfront Hpath.
  destruct (front_ok a e _ st1 0 q r path Hfront) as (Hcm & _).
  unfold Pipeline.local_matching. cbn [run_from].
  unfold Pipeline.query_body. rewrite Hfront. simpl.
  unfold Pipeline.back. rewrite Hcm. simpl.
  by rewrite intrinsics_unbound.
Qed.

(** Later in a verification run a failed query is scored with the pose
    of the last query that was localised. *)
Lemma verify_failure_reuses_pose (a : args) (e : @env XYZ CM)
    (st st1 : @state CM Pos Quat) (query_id : nat) (q : @query D K)
    (r : @Matching.result K XYZ) (path : string)
    (i : CM * float * option (CM * float)) (position : Pos) (quat : Quat) :
  verify a = true → pose st = Some (position, quat) →
  front a e st query_id q = Ok (st1, r, path) →
  (length (matched_pts_xyz r) < 5)%nat →
  intrinsics e (cm st1) path = Ok i →
  ∃ st' im, query_body a e st query_id q = Ok st' ∧
            errors st' = errors st ++ [(pose_error im position quat).1] ∧
            pose st' = Some (position, quat).
Proof.
  intros Hv Hpose Hfront Hlen Hi.
  destruct (front_ok a e st st1 query_id q r path Hfront)
    as (_ & Hp & _ & _ & He & Hq).
  destruct (Hq Hv) as (qid & im & Hqid & Him).
  unfold Pipeline.query_body. rewrite Hfront. simpl.
  unfold Pipeline.back. rewrite Hi. simpl. destruct i as [[cmx dist] cm1].
  rewrite solve_pose_too_few by done. simpl.
  unfold Pipeline.report. simpl. rewrite Hv, Hqid. simpl. rewrite Him. simpl.
  rewrite Hp, Hpose. destruct (pose_error im position quat) as [err rot] eqn:E.
  exists (mk_state (img_cluster st1) cm1 (Some (position, quat))
            (out_file st1) (top_neighbor_match st1) (local_matching_rate st1)
            (inlier_rates st1 ++ [0%float]) (inlier_nums st1 ++ [0])
            (errors st1 ++ [err]) (errors_rot st1 ++ [rot])), im.
  split; [done|]. simpl. by rewrite E, He.
Qed.

End Facts.

Import Demo.

(** Six correspondences, five of them inliers, at least three required. *)
Lemma solve_pose_gates_witness :
  ∃ s, Pipeline.solve_pose demo_ransac demo_refine demo_pose 3
         [1; 2; 3; 4; 5; 6] ["a"; "b"; "c"; "d"; "e"; "f"] tt 0.5%float
       = Ok s ∧
       calls s = [CallRansac; CallRefine] ∧ is_Some (new_pose s).
Proof.
  destruct (Pipeline.solve_pose demo_ransac demo_refine demo_pose 3
              [1; 2; 3; 4; 5; 6] ["a"; "b"; "c"; "d"; "e"; "f"] tt 0.5%float)
    as [s|err] eqn:Hs; [|by vm_compute in Hs].
  exists s. split; [done|].
  destruct (proj2 (solve_pose_gates demo_ransac demo_refine demo_pose 3
                     [1; 2; 3; 4; 5; 6] ["a"; "b"; "c"; "d"; "e"; "f"] tt
                     0.5%float) s ltac:(simpl; lia) Hs)
    as (ok & R_vec & translation & inliers & Hr & Hn & Hif).
  injection Hr as <- _ _ <-. rewrite Hn in Hif. exact Hif.
Defined.

(** A verification run whose first query matches in one image only. *)
Lemma verify_failure_is_fatal_witness :
  demo_run true [poor_query] = Raise UnboundLocalError.
Proof.
  unfold demo_run. eapply verify_failure_is_fatal.
  - reflexivity.
  - vm_compute. reflexivity.
  - simpl. lia.
Defined.

(** A run whose first query file has no entry in [camera_matrices]. *)
Lemma missing_intrinsics_is_fatal_witness :
  demo_run false [demo_query] = Raise UnboundLocalError.
Proof.
  unfold demo_run. eapply missing_intrinsics_is_fatal.
  - vm_compute. reflexivity.
  - vm_compute. reflexivity.
Defined.

End PipelineFacts.

(** ** The failure statistics *)

Module StatsFacts.
Import Stats.

Lemma samples_ok (errors errors_rot : list float)
    (top_neighbor_match : list (list float)) (inlier_rates : list float)
    (inlier_nums : list Z) :
  length errors_rot = length errors →
  length top_neighbor_match = length errors →
  length inlier_rates = length errors →
  length inlier_nums = length errors →
  Forall (λ row, row ≠ []) top_neighbor_match →
  ∃ ss, samples errors errors_rot top_neighbor_match inlier_rates inlier_nums
        = Ok ss ∧
        Forall (λ s, neighbor_match s ≠ []) ss ∧
        length ss = length errors.
Proof.
  revert errors_rot top_neighbor_match inlier_rates inlier_nums.
  induction errors as [|e es IH];
    intros [|r rs] [|t ts] [|ir irs] [|n ns] H1 H2 H3 H4 Hrows;
    simplify_eq/=.
  { by exists []. }
  apply Forall_cons in Hrows as [Ht Hrows].
  destruct (IH rs ts irs ns) as (ss & -> & Hss & Hlen); try done.
  eexists. split; [reflexivity|]. split; [by constructor|]. simpl. by f_equal.
Qed.

Lemma classify_ok (s : sample) :
  neighbor_match s ≠ [] →
  ∃ f, classify s = Ok f ∧ by_priority s f ∧ one_category f ∧
       fii f = fi f && valid f ∧ fic f = fi f && negb (valid f) ∧
       lii f = li f && valid f ∧ lic f = li f && negb (valid f) ∧
       oti f = ot f && valid f ∧ otc f = ot f && negb (valid f).
Proof.
  intros Hrow. unfold classify, np_max.
  destruct (neighbor_match s) as [|x rest] eqn:Hnm; [done|]. simpl.
  eexists. split; [reflexivity|].
  unfold by_priority, one_category. rewrite Hnm. simpl.
  split.
  { split; [done|]. split; [by eexists|].
    destruct (PrimFloat.ltb 5 (error s) || PrimFloat.ltb 10 (error_rot s)),
      (PrimFloat.ltb 0 (fold_left fmax rest x)),
      (inlier_num s <? 12), (PrimFloat.ltb (inlier_rate s) 10); done. }
  split; [|done].
  destruct (PrimFloat.ltb 5 (error s) || PrimFloat.ltb 10 (error_rot s)),
    (PrimFloat.ltb 0 (fold_left fmax rest x)),
    (inlier_num s <? 12), (PrimFloat.ltb (inlier_rate s) 10); done.
Qed.

Lemma np_sum_cons (mask : flags → bool) (f : flags) (fs : list flags) :
  np_sum mask (f :: fs) = Z.b2z (mask f) + np_sum mask fs.
Proof. unfold np_sum. simpl. destruct (mask f); simpl; lia. Qed.

Lemma np_sum_split (p pi pc : flags → bool) (fs : list flags) :
  Forall (λ f, pi f = p f && valid f ∧ pc f = p f && negb (valid f)) fs →
  np_sum pi fs + np_sum pc fs = np_sum p fs.
Proof.
  induction 1 as [|f fs [Hi Hc] _ IH]; [done|].
  rewrite !np_sum_cons, Hi, Hc.
  destruct (p f), (valid f); simpl; lia.
Qed.

Lemma np_sum_categories (fs : list flags) :
  Forall one_category fs →
  np_sum bni fs + np_sum fii fs + np_sum lii fs + np_sum oti fs
  = np_sum valid fs.
Proof.
  induction 1 as [|f fs Hf _ IH]; [done|].
  rewrite !np_sum_cons.
  destruct Hf as (H1 & H2 & H3 & H4 & H5 & H6 & ->).
  destruct (bni f), (fii f), (lii f), (oti f); simpl in *; try done; lia.
Qed.

Lemma mapM_classify_ok (ss : list sample) :
  Forall (λ s, neighbor_match s ≠ []) ss →
  ∃ fs, mapM classify ss = Ok fs ∧
        Forall2 by_priority ss fs ∧ Forall one_category fs ∧
        Forall (λ f, fii f = fi f && valid f ∧ fic f = fi f && negb (valid f)) fs ∧
        Forall (λ f, lii f = li f && valid f ∧ lic f = li f && negb (valid f)) fs ∧
        Forall (λ f, oti f = ot f && valid f ∧ otc f = ot f && negb (valid f)) fs.
Proof.
  induction 1 as [|s ss Hs _ (fs & Hfs & H1 & H2 & H3 & H4 & H5)].
  { exists []. repeat split; constructor. }
  destruct (classify_ok s Hs)
    as (f & Hf & Hp & Hone & Hfi & Hfc & Hli & Hlc & Hoi & Hoc).
  exists (f :: fs). cbn [mapM]. rewrite Hf, Hfs. simpl.
  repeat split; by constructor.
Qed.

(** C9: on arrays with one entry per query the failure set is the set of
    queries with a translation error above 5.0 or a rotation error above
    10.0; every query is attributed by priority (bad neighbours, few
    inliers, low inlier rate, other), no query is in two of the four
    categories, and the four counts of failures add up to the number of
    failures.  The assertions of the source never fire. *)
Theorem reasons_partition (errors errors_rot : list float)
    (top_neighbor_match : list (list float)) (inlier_rates : list float)
    (inlier_nums : list Z) :
  length errors_rot = length errors →
  length top_neighbor_match = length errors →
  length inlier_rates = length errors →
  length inlier_nums = length errors →
  Forall (λ row, row ≠ []) top_neighbor_match →
  ∃ ss fs,
    samples errors errors_rot top_neighbor_match inlier_rates inlier_nums
    = Ok ss ∧
    mapM classify ss = Ok fs ∧
    Forall2 by_priority ss fs ∧
    Forall one_category fs ∧
    np_sum bni fs + np_sum fii fs + np_sum lii fs + np_sum oti fs
    = np_sum valid fs ∧
    reasons errors errors_rot top_neighbor_match inlier_rates inlier_nums
    = Ok (if existsb (λ s, PrimFloat.ltb 5 (error s)
                           || PrimFloat.ltb 10 (error_rot s)) ss
          then Some (fs, mk_counts (np_sum valid fs) (np_sum bni fs)
                           (np_sum fii fs) (np_sum lii fs) (np_sum oti fs))
          else None).
Proof.
  intros H1 H2 H3 H4 Hrows.
  destruct (samples_ok errors errors_rot top_neighbor_match inlier_rates
              inlier_nums H1 H2 H3 H4 Hrows) as (ss & Hss & Hne & _).
  destruct (mapM_classify_ok ss Hne)
    as (fs & Hfs & Hprio & Hone & Hfi & Hli & Hot).
  exists ss, fs. split; [done|]. split; [done|]. split; [done|].
  split; [done|]. split; [by apply np_sum_categories|].
  unfold reasons. rewrite Hss. simpl.
  destruct (existsb _ ss); [|done].
  rewrite Hfs. simpl.
  rewrite (np_sum_split fi fii fic fs Hfi), (np_sum_split li lii lic fs Hli),
    (np_sum_split ot oti otc fs Hot), !Z.eqb_refl.
  done.
Qed.

(** Four queries: one localised, one failure for each of the first three
    causes. *)
Lemma reasons_partition_witness :
  reasons [0.5; 7; 8; 9]%float [1; 1; 20; 1]%float
    [[50; 0]; [0; 0]; [10; 20]; [30; 0]]%float
    [80; 50; 40; 5]%float [40; 30; 6; 20]
  = Ok (Some
          ([mk_flags false false false false false false false
              false false false true false true;
            mk_flags true true true false false false false
              false false false false false false;
            mk_flags true false false false true true false
              false false false false false false;
            mk_flags true false false false false false false
              true true false false false false],
           mk_counts 3 1 1 1 0)).
Proof.
  destruct (reasons_partition [0.5; 7; 8; 9]%float [1; 1; 20; 1]%float
              [[50; 0]; [0; 0]; [10; 20]; [30; 0]]%float
              [80; 50; 40; 5]%float [40; 30; 6; 20])
    as (ss & fs & Hss & Hfs & _ & _ & _ & ->);
    [reflexivity ..| |].
  { repeat constructor; done. }
  vm_compute in Hss. injection Hss as <-.
  vm_compute in Hfs. injection Hfs as <-.
  vm_compute. reflexivity.
Defined.

End StatsFacts.

(** ** More on the co-visibility map and the cluster builder *)

Module ClusterMore.
Import Cluster ClusterFacts.

Implicit Types (m : gmap Z (gset Z)) (s : gset Z).

Lemma add_point_inv s (todo : list Z) m m' :
  add_point s todo m = Ok m' →
  (∀ i, i ∈ todo → is_Some (m !! i)) ∧
  (∀ k, is_Some (m' !! k) ↔ is_Some (m !! k)) ∧
  (∀ k, deref m' k = if decide (k ∈ todo) then deref m k ∪ s else deref m k).
Proof.
  revert m. induction todo as [|i todo IH]; intros m H; simpl in H.
  { injection H as <-. repeat split; try done. by intros i ?%elem_of_nil. }
  destruct (m !! i) as [c|] eqn:Hi; [|done].
  destruct (IH _ H) as (Hk & Hdom & Hd).
  assert (Hdom1 : ∀ k, is_Some (<[i := c ∪ s]> m !! k) ↔ is_Some (m !! k)).
  { intros k. destruct (decide (i = k)) as [<-|Hne].
    - rewrite lookup_insert_eq, Hi. split; eauto.
    - by rewrite lookup_insert_ne. }
  split; [|split].
  - intros j [->|Hj]%elem_of_cons; [by rewrite Hi|].
    apply Hdom1. by apply Hk.
  - intros k. by rewrite Hdom, Hdom1.
  - intros k. rewrite Hd.
    destruct (decide (i = k)) as [<-|Hne].
    + rewrite deref_insert, (deref_lookup m i c Hi).
      rewrite (decide_True (P := i ∈ i :: todo)) by left.
      case_decide; set_solver.
    + rewrite deref_insert_ne by done.
      destruct (decide (k ∈ todo)) as [Hin|Hnin].
      * by rewrite (decide_True (P := k ∈ i :: todo)) by by right.
      * rewrite (decide_False (P := k ∈ i :: todo)); [done|].
        intros [->|?]%elem_of_cons; done.
Qed.

Lemma add_point_total s (todo : list Z) m :
  (∀ i, i ∈ todo → is_Some (m !! i)) → ∃ m', add_point s todo m = Ok m'.
Proof.
  revert m. induction todo as [|i todo IH]; intros m Hk; simpl; [eauto|].
  destruct (Hk i) as [c Hc]; [left|]. rewrite Hc. apply IH.
  intros j Hj. destruct (decide (i = j)) as [<-|Hne].
  - rewrite lookup_insert_eq. eauto.
  - rewrite lookup_insert_ne by done. apply Hk. by right.
Qed.

Lemma add_point_raises s (todo : list Z) m e :
  add_point s todo m = Raise e → e = KeyError.
Proof.
  revert m. induction todo as [|i todo IH]; intros m; simpl; [done|].
  destruct (m !! i); [apply IH|congruence].
Qed.

(** The observers of the points, as the loop over [points3d] leaves them. *)
Lemma add_points_inv (points3d : list (Z * list Z)) m m' :
  add_points points3d m = Ok m' →
  (∀ pt i, pt ∈ points3d → i ∈ pt.2 → is_Some (m !! i)) ∧
  (∀ k, is_Some (m' !! k) ↔ is_Some (m !! k)) ∧
  (∀ k j, j ∈ deref m' k ↔
          j ∈ deref m k ∨ ∃ pt, pt ∈ points3d ∧ k ∈ pt.2 ∧ j ∈ pt.2).
Proof.
  revert m. induction points3d as [|[p obs] pts IH]; intros m H; simpl in H.
  { injection H as <-. repeat split; try done.
    - by intros pt i ?%elem_of_nil.
    - by left.
    - intros [?|(pt & ?%elem_of_nil & _)]; done. }
  apply bind_ok in H as (m1 & H1 & H).
  destruct (add_point_inv _ _ _ _ H1) as (Hk1 & Hdom1 & Hd1).
  destruct (IH _ H) as (Hk & Hdom & Hd).
  split; [|split].
  - intros pt i [->|Hpt]%elem_of_cons Hi.
    + apply Hk1. simpl in Hi. set_solver.
    + apply Hdom1. by eapply Hk.
  - intros k. by rewrite Hdom, Hdom1.
  - intros k j. rewrite Hd, Hd1. split.
    + intros [Hj|(pt & Hpt & Hkp & Hjp)].
      * case_decide as Hin; [|by left].
        apply elem_of_union in Hj as [Hj|Hj]; [by left|].
        right. exists (p, obs). simpl. split; [left|]. set_solver.
      * right. exists pt. split; [by right|done].
    + intros [Hj|(pt & [->|Hpt]%elem_of_cons & Hkp & Hjp)].
      * left. case_decide; set_solver.
      * left. simpl in *. rewrite decide_True by set_solver. set_solver.
      * right. by exists pt.
Qed.

Lemma add_points_total (points3d : list (Z * list Z)) m :
  (∀ pt i, pt ∈ points3d → i ∈ pt.2 → is_Some (m !! i)) →
  ∃ m', add_points points3d m = Ok m'.
Proof.
  revert m. induction points3d as [|[p obs] pts IH]; intros m Hk; simpl;
    [eauto|].
  destruct (add_point_total (list_to_set obs)
              (elements (list_to_set obs : gset Z)) m) as [m1 H1].
  { intros i Hi. apply (Hk (p, obs)); [left|]. simpl. set_solver. }
  rewrite H1. simpl. apply IH. intros pt i Hpt Hi.
  apply (add_point_inv _ _ _ _ H1). apply (Hk pt); [by right|done].
Qed.

Lemma add_points_raises (points3d : list (Z * list Z)) m e :
  add_points points3d m = Raise e → e = KeyError.
Proof.
  revert m. induction points3d as [|[p obs] pts IH]; intros m; simpl; [done|].
  destruct (add_point _ _ m) as [m1|e1] eqn:H1; simpl.
  - apply IH.
  - intros [= <-]. by eapply add_point_raises.
Qed.

Lemma initial_lookup (images : list Z) (k : Z) :
  (list_to_map ((λ img, (img, ∅)) <$> images) : gmap Z (gset Z)) !! k
  = if decide (k ∈ images) then Some ∅ else None.
Proof.
  induction images as [|i images IH].
  { rewrite fmap_nil, list_to_map_nil, lookup_empty.
    destruct (decide (k ∈ [])) as [H|_]; [|done]. by apply elem_of_nil in H. }
  rewrite fmap_cons, list_to_map_cons.
  destruct (decide (i = k)) as [<-|Hne].
  - rewrite lookup_insert_eq.
    destruct (decide (i ∈ i :: images)) as [_|H]; [done|].
    exfalso. apply H. left.
  - rewrite lookup_insert_ne by done. rewrite IH.
    destruct (decide (k ∈ images)) as [Hin|Hnin];
      destruct (decide (k ∈ i :: images)) as [Hin'|Hnin']; try done.
    + exfalso. apply Hnin'. by right.
    + apply elem_of_cons in Hin' as [->|?]; done.
Qed.

Lemma get_img_cluster_ok (images : list Z) (points3d : list (Z * list Z)) m :
  get_img_cluster images points3d = Ok m →
  (∀ pt i, pt ∈ points3d → i ∈ pt.2 → i ∈ images) ∧
  (∀ k, is_Some (m !! k) ↔ k ∈ images) ∧
  (∀ i j, j ∈ deref m i ↔ ∃ pt, pt ∈ points3d ∧ i ∈ pt.2 ∧ j ∈ pt.2).
Proof.
  intros H. apply add_points_inv in H as (Hk & Hdom & Hd).
  assert (Hinit : ∀ k,
    is_Some ((list_to_map ((λ img, (img, ∅)) <$> images)
              : gmap Z (gset Z)) !! k) ↔ k ∈ images).
  { intros k. rewrite initial_lookup.
    destruct (decide (k ∈ images)); split; try done; eauto. }
  split; [|split].
  - intros pt i Hpt Hi. apply Hinit. by eapply Hk.
  - intros k. by rewrite Hdom.
  - intros i j. rewrite Hd. split; [|by right].
    intros [Hj|?]; [|done]. exfalso. revert Hj.
    unfold deref. rewrite lookup_total_alt, initial_lookup.
    destruct (decide (i ∈ images)); simpl; set_solver.
Qed.

Lemma get_img_cluster_total (images : list Z) (points3d : list (Z * list Z)) :
  (∀ pt i, pt ∈ points3d → i ∈ pt.2 → i ∈ images) →
  ∃ m, get_img_cluster images points3d = Ok m.
Proof.
  intros Hclosed. apply add_points_total.
  intros pt i Hpt Hi. rewrite initial_lookup.
  rewrite decide_True by by eapply Hclosed. eauto.
Qed.

(** [get_img_cluster] on a map whose points are observed by known images
    only: the keys are the images, and image [j] is in the set of image [i]
    exactly when some 3D point is observed by both. *)
Theorem get_img_cluster_covisible (images : list Z)
    (points3d : list (Z * list Z)) :
  (∀ pt i, pt ∈ points3d → i ∈ pt.2 → i ∈ images) →
  ∃ m, get_img_cluster images points3d = Ok m ∧
       (∀ k, is_Some (m !! k) ↔ k ∈ images) ∧
       (∀ i j, j ∈ deref m i ↔ ∃ pt, pt ∈ points3d ∧ i ∈ pt.2 ∧ j ∈ pt.2).
Proof.
  intros Hclosed.
  destruct (get_img_cluster_total images points3d Hclosed) as [m Hm].
  exists m. split; [done|].
  by destruct (get_img_cluster_ok images points3d m Hm) as (_ & ? & ?).
Qed.

Lemma get_img_cluster_covisible_witness :
  ∃ m, get_img_cluster [1; 2; 3] [(100, [1; 2]); (101, [3])] = Ok m ∧
       (∀ k, is_Some (m !! k) ↔ k ∈ [1; 2; 3]) ∧
       (∀ i j, j ∈ deref m i ↔
               ∃ pt, pt ∈ [(100, [1; 2]); (101, [3])] ∧ i ∈ pt.2 ∧ j ∈ pt.2).
Proof.
  apply (get_img_cluster_covisible [1; 2; 3] [(100, [1; 2]); (101, [3])]).
  intros pt i Hpt Hi.
  repeat (apply elem_of_cons in Hpt as [->|Hpt]); simpl in Hi;
    [set_solver..|by apply elem_of_nil in Hpt].
Defined.

(** The map [get_img_cluster] returns is symmetric, every image that is in
    some set is in its own set, and every member of a set is a key. *)
Theorem get_img_cluster_symmetric (images : list Z)
    (points3d : list (Z * list Z)) m :
  get_img_cluster images points3d = Ok m →
  ∀ i j, j ∈ deref m i →
         i ∈ deref m j ∧ i ∈ deref m i ∧ j ∈ deref m j ∧
         is_Some (m !! i) ∧ is_Some (m !! j).
Proof.
  intros H i j Hj.
  destruct (get_img_cluster_ok images points3d m H) as (Hcl & Hdom & Hd).
  apply Hd in Hj as (pt & Hpt & Hi & Hj).
  repeat split.
  - apply Hd. by exists pt.
  - apply Hd. by exists pt.
  - apply Hd. by exists pt.
  - apply Hdom. by eapply Hcl.
  - apply Hdom. by eapply Hcl.
Qed.

Lemma get_img_cluster_symmetric_witness :
  ∃ m, get_img_cluster [1; 2; 3] [(100, [1; 2]); (101, [3])] = Ok m ∧
       1 ∈ deref m 2 ∧ 2 ∈ deref m 2.
Proof.
  destruct (get_img_cluster [1; 2; 3] [(100, [1; 2]); (101, [3])])
    as [m|e] eqn:Hm; [|by vm_compute in Hm].
  exists m. split; [done|].
  assert (H21 : 2 ∈ deref m 1).
  { vm_compute in Hm. injection Hm as <-.
    apply (bool_decide_unpack _). vm_compute. exact I. }
  destruct (get_img_cluster_symmetric _ _ m Hm 1 2 H21) as (? & _ & ? & _).
  by split.
Defined.

(** [get_img_cluster] raises exactly when some point is observed by an
    image that is not a key of [images], and then with a [KeyError]. *)
Theorem get_img_cluster_key_error (images : list Z)
    (points3d : list (Z * list Z)) (e : exn) :
  get_img_cluster images points3d = Raise e ↔
  e = KeyError ∧ ∃ pt i, pt ∈ points3d ∧ i ∈ pt.2 ∧ i ∉ images.
Proof.
  split.
  - intros H. split; [by eapply add_points_raises|].
    destruct (decide (Forall (λ pt : Z * list Z,
                                Forall (λ i, i ∈ images) pt.2) points3d))
      as [Hall|Hex].
    + destruct (get_img_cluster_total images points3d) as (m & Hm).
      { intros pt i Hpt Hi.
        rewrite Forall_forall in Hall. specialize (Hall pt Hpt).
        rewrite Forall_forall in Hall. by apply Hall. }
      congruence.
    + apply not_Forall_Exists in Hex; [|apply _].
      apply Exists_exists in Hex as (pt & Hpt & Hex).
      apply not_Forall_Exists in Hex; [|apply _].
      apply Exists_exists in Hex as (i & Hi & Hni).
      by exists pt, i.
  - intros (-> & pt & i & Hpt & Hi & Hni).
    destruct (get_img_cluster images points3d) as [m|e] eqn:H.
    + destruct (get_img_cluster_ok images points3d m H) as (Hcl & _).
      exfalso. apply Hni. by eapply Hcl.
    + f_equal. by eapply add_points_raises.
Qed.

Lemma add_neighbor_inv image_ids (st st' : gmap Z (gset Z) * list Z)
    (idx : nat) :
  add_neighbor image_ids st idx = Ok st' →
  ∃ id, image_ids !! idx = Some id ∧ is_Some (st.1 !! id) ∧
        (∀ k, is_Some (st'.1 !! k) ↔ is_Some (st.1 !! k)) ∧
        (∀ k, deref st.1 k ⊆ deref st'.1 k) ∧
        (∀ k, k ∉ st'.2 → deref st'.1 k = deref st.1 k) ∧
        (∃ new, st'.2 = st.2 ++ new).
Proof.
  destruct st as [m cq]. unfold add_neighbor.
  destruct (image_ids !! idx) as [id|]; [|done].
  destruct (m !! id) as [ps|] eqn:Hps; [|done].
  destruct (find_cluster m id cq) as [r|] eqn:Hf; intros [= <-]; simpl.
  - apply find_cluster_Some in Hf as [Hr Hin].
    exists id. split; [done|]. split; [eauto|].
    split; [|split; [|split]].
    + intros k. destruct (decide (r = k)) as [<-|Hne].
      * rewrite lookup_insert_eq. split; [|eauto].
        intros _. by eapply deref_elem_is_Some.
      * by rewrite lookup_insert_ne.
    + intros k. destruct (decide (r = k)) as [<-|Hne].
      * rewrite deref_insert. set_solver.
      * by rewrite deref_insert_ne.
    + intros k Hk. apply deref_insert_ne. by intros ->.
    + exists []. by rewrite app_nil_r.
  - exists id. split; [done|]. split; [eauto|]. repeat split; try done.
    by exists [id].
Qed.

Lemma add_neighbors_inv image_ids (row : list nat)
    (st st' : gmap Z (gset Z) * list Z) :
  add_neighbors image_ids row st = Ok st' →
  Forall (λ idx, ∃ id, image_ids !! idx = Some id ∧ is_Some (st.1 !! id)) row ∧
  (∀ k, is_Some (st'.1 !! k) ↔ is_Some (st.1 !! k)) ∧
  (∀ k, deref st.1 k ⊆ deref st'.1 k) ∧
  (∀ k, k ∉ st'.2 → deref st'.1 k = deref st.1 k) ∧
  (∃ new, st'.2 = st.2 ++ new).
Proof.
  revert st. induction row as [|idx row IH]; intros st H; simpl in H.
  { injection H as <-. repeat split; try done. exists []. by rewrite app_nil_r. }
  apply bind_ok in H as (st1 & H1 & H).
  destruct (add_neighbor_inv _ _ _ _ H1)
    as (id & Hid & Hkey & Hdom1 & Hmono1 & Hsame1 & new1 & Hnew1).
  destruct (IH _ H) as (Hall & Hdom & Hmono & Hsame & new & Hnew).
  split; [|split; [|split; [|split]]].
  - constructor; [by exists id|].
    eapply Forall_impl; [exact Hall|]. simpl.
    intros i (id' & ? & ?). exists id'. split; [done|]. by apply Hdom1.
  - intros k. by rewrite Hdom, Hdom1.
  - intros k. etrans; [apply Hmono1|apply Hmono].
  - intros k Hk. rewrite Hsame by done. apply Hsame1.
    intros Hin. apply Hk. rewrite Hnew. apply elem_of_app. by left.
  - exists (new1 ++ new). by rewrite Hnew, Hnew1, app_assoc.
Qed.

Lemma add_neighbors_total image_ids (row : list nat)
    (st : gmap Z (gset Z) * list Z) :
  Forall (λ idx, ∃ id, image_ids !! idx = Some id ∧ is_Some (st.1 !! id)) row →
  ∃ st', add_neighbors image_ids row st = Ok st'.
Proof.
  intros Hall. revert st Hall.
  induction row as [|idx row IH]; intros st Hall; simpl; [eauto|].
  apply Forall_cons in Hall as [(id & Hid & [ps Hps]) Hall].
  assert (∃ st1, add_neighbor image_ids st idx = Ok st1) as [st1 H1].
  { destruct st as [m cq]. unfold add_neighbor. simpl in Hps.
    rewrite Hid, Hps. destruct (find_cluster m id cq); eauto. }
  rewrite H1. simpl. apply IH.
  destruct (add_neighbor_inv _ _ _ _ H1) as (_ & _ & _ & Hdom1 & _).
  eapply Forall_impl; [exact Hall|]. simpl.
  intros i (id' & ? & ?). exists id'. split; [done|]. by apply Hdom1.
Qed.

(** The cluster builder returns exactly when the row is not empty, every
    index of the row is an index of [image_ids] and every neighbour has an
    entry in [img_cluster]; a short or partly unknown neighbour list makes
    it raise. *)
Theorem build_clusters_ok_iff image_ids (row : list nat) m :
  (∃ st, build_clusters image_ids row m = Ok st) ↔
  row ≠ [] ∧
  Forall (λ idx, ∃ id, image_ids !! idx = Some id ∧ is_Some (m !! id)) row.
Proof.
  unfold build_clusters. split.
  - intros [st H]. destruct row as [|idx0 row]; [done|]. split; [done|].
    destruct (image_ids !! idx0) as [i0|] eqn:H0; [|done].
    destruct (m !! i0) as [s0|] eqn:Hs0; [|done].
    constructor; [exists i0; by rewrite Hs0|].
    by apply add_neighbors_inv in H as (Hall & _).
  - intros [Hne Hall]. destruct row as [|idx0 row]; [done|].
    apply Forall_cons in Hall as [(i0 & -> & [s0 ->]) Hall].
    by apply add_neighbors_total.
Qed.

(** What a call of the builder does to [img_cluster]: no key is added or
    removed, no set loses a member, only the sets of the images that seed a
    cluster change, and the first cluster is seeded by the top-ranked
    neighbour. *)
Theorem build_clusters_grows image_ids (row : list nat) m
    (st : gmap Z (gset Z) * list Z) :
  build_clusters image_ids row m = Ok st →
  (∀ k, is_Some (st.1 !! k) ↔ is_Some (m !! k)) ∧
  (∀ k, deref m k ⊆ deref st.1 k) ∧
  (∀ k, k ∉ st.2 → deref st.1 k = deref m k) ∧
  (∃ idx0 i0, row !! 0%nat = Some idx0 ∧ image_ids !! idx0 = Some i0 ∧
              st.2 !! 0%nat = Some i0).
Proof.
  unfold build_clusters. intros H.
  destruct row as [|idx0 row]; [done|].
  destruct (image_ids !! idx0) as [i0|] eqn:H0; [|done].
  destruct (m !! i0) as [s0|] eqn:Hs0; [|done].
  apply add_neighbors_inv in H as (_ & Hdom & Hmono & Hsame & new & Hnew).
  simpl in *. repeat split; try done; try apply Hdom.
  exists idx0, i0. by rewrite Hnew.
Qed.

Lemma build_clusters_grows_witness :
  let m : gmap Z (gset Z) :=
    <[1 := {[1; 2]}]> (<[2 := {[1; 2; 4]}]> (<[3 := {[3]}]>
      (<[4 := {[2; 4]}]> ∅))) in
  ∃ st, build_clusters [1; 2; 3; 4] [0; 2; 1; 3]%nat m = Ok st ∧
        (∀ k, deref m k ⊆ deref st.1 k) ∧
        (∀ k, k ∉ st.2 → deref st.1 k = deref m k).
Proof.
  intros m.
  destruct (build_clusters [1; 2; 3; 4] [0; 2; 1; 3]%nat m) as [st|e] eqn:H;
    [|by vm_compute in H].
  exists st. split; [done|].
  by destruct (build_clusters_grows _ _ _ _ H) as (_ & ? & ? & _).
Defined.

(** The builder on the map of [get_img_cluster]: for ranked neighbours
    that are images of the map it never raises, and every neighbour that
    observes a 3D point is a member of one of the clusters it returns. *)
Theorem clusters_cover_neighbors (images : list Z)
    (points3d : list (Z * list Z)) m image_ids (row : list nat)
    (ids : list Z) :
  get_img_cluster images points3d = Ok m →
  Forall2 (λ idx id, image_ids !! idx = Some id) row ids →
  ids ≠ [] →
  (∀ id, id ∈ ids → id ∈ images) →
  ∃ st, build_clusters image_ids row m = Ok st ∧
        ∀ id pt, id ∈ ids → pt ∈ points3d → id ∈ pt.2 →
                 ∃ c, c ∈ clusters_of st ∧ id ∈ c.
Proof.
  intros Hm Hrow Hne Hids.
  destruct (get_img_cluster_ok images points3d m Hm) as (_ & Hdom & Hd).
  destruct Hrow as [|idx0 i0 row ids Hidx0 Hrow]; [done|].
  destruct (proj2 (Hdom i0)) as [s0 Hs0]; [apply Hids; left|].
  unfold build_clusters. rewrite Hidx0, Hs0.
  destruct (union_inv_loop m image_ids row ids Hrow) with
    (seen := [i0]) (st := (m, [i0])) as (st & Hst & Hinv).
  - intros id Hid. apply Hdom, Hids. by right.
  - repeat split; simpl; try done.
    + set_solver.
    + intros n ->%list_elem_of_singleton. set_solver.
  - exists st. split; [done|]. intros id pt Hid Hpt Hin.
    destruct Hinv as (_ & _ & _ & _ & Hcov).
    assert (Hself : id ∈ deref m id) by (apply Hd; by exists pt).
    apply (Hcov id Hid) in Hself.
    by apply elem_of_union_list in Hself.
Qed.

Lemma clusters_cover_neighbors_witness :
  ∃ m st,
    get_img_cluster [1; 2; 3] [(100, [1; 2]); (101, [3])] = Ok m ∧
    build_clusters [1; 2; 3] [2; 0]%nat m = Ok st ∧
    ∃ c, c ∈ clusters_of st ∧ 1 ∈ c.
Proof.
  destruct (get_img_cluster [1; 2; 3] [(100, [1; 2]); (101, [3])])
    as [m|e] eqn:Hm; [|by vm_compute in Hm].
  destruct (clusters_cover_neighbors [1; 2; 3] [(100, [1; 2]); (101, [3])]
              m [1; 2; 3] [2; 0]%nat [3; 1] Hm)
    as (st & Hst & Hcov).
  - repeat constructor.
  - done.
  - intros id Hid. set_solver.
  - exists m, st. split; [done|]. split; [done|].
    apply (Hcov 1 (100, [1; 2])); [set_solver|left|simpl; set_solver].
Defined.

Lemma ids_at_seq image_ids (row : list nat) (ids : list Z) (a n : nat) :
  Forall2 (λ idx id, image_ids !! idx = Some id) row ids →
  (a + n ≤ length row)%nat →
  ids_at image_ids row (seq a n) = Ok (take n (drop a ids)).
Proof.
  intros Hrow. revert a. induction n as [|n IH]; intros a Hlen; simpl.
  { by rewrite take_0. }
  destruct (lookup_lt_is_Some_2 row a) as [idx Hidx]; [lia|].
  destruct (Forall2_lookup_l _ _ _ _ _ Hrow Hidx) as (id & Hid & Hlook).
  rewrite Hidx, Hlook, IH by lia. simpl.
  by rewrite (drop_S _ _ _ Hid).
Qed.

Lemma ids_at_short image_ids (row : list nat) (a n : nat) :
  (a ≤ length row < a + n)%nat →
  ids_at image_ids row (seq a n) = Raise IndexError.
Proof.
  revert a. induction n as [|n IH]; intros a Hlen; [lia|]. simpl.
  destruct (row !! a) as [idx|] eqn:Hidx; [|done].
  destruct (image_ids !! idx); [|done].
  apply lookup_lt_Some in Hidx. by rewrite IH by lia.
Qed.

(** Without clustering: when the row holds at least [n_neighbors]
    neighbours the single cluster is the list of the first [n_neighbors]
    image ids; a shorter row raises an [IndexError]. *)
Theorem top_k_cluster_take image_ids (row : list nat) (ids : list Z)
    (n_neighbors : Z) :
  Forall2 (λ idx id, image_ids !! idx = Some id) row ids →
  (row ≠ [] → n_neighbors ≤ Z.of_nat (length row) →
   top_k_cluster image_ids row n_neighbors
   = Ok (take (Z.to_nat n_neighbors) ids)) ∧
  (Z.of_nat (length row) < n_neighbors →
   top_k_cluster image_ids row n_neighbors = Raise IndexError).
Proof.
  intros Hrow. unfold top_k_cluster. split.
  - intros Hne Hlen. destruct Hrow as [|idx0 i0 row ids H0 Hrow]; [done|].
    rewrite H0.
    rewrite (ids_at_seq image_ids (idx0 :: row) (i0 :: ids)).
    + by rewrite drop_0.
    + by constructor.
    + simpl in *. lia.
  - intros Hlen. destruct Hrow as [|idx0 i0 row ids H0 Hrow]; [done|].
    rewrite H0. apply ids_at_short. simpl in *. lia.
Qed.

Lemma top_k_cluster_take_witness :
  top_k_cluster [10; 20; 30] [2; 0; 1]%nat 2 = Ok [30; 10] ∧
  top_k_cluster [10; 20; 30] [2; 0; 1]%nat 4 = Raise IndexError.
Proof.
  destruct (top_k_cluster_take [10; 20; 30] [2; 0; 1]%nat [30; 10; 20] 2)
    as [H2 _]; [repeat constructor|].
  destruct (top_k_cluster_take [10; 20; 30] [2; 0; 1]%nat [30; 10; 20] 4)
    as [_ H4]; [repeat constructor|].
  split; [apply H2; [done|simpl; lia] | apply H4; simpl; lia].
Defined.

End ClusterMore.

(** ** More on the post-processing of the neighbour indices *)

Module NeighborMore.
Import Neighbors NeighborFacts.






Lemma cut_rows_length image_ids (k : Z) (indices rows : list (list nat)) :
  cut_rows image_ids k indices = Ok rows → length rows = length indices.
Proof.
  revert rows. induction indices as [|row indices IH]; intros rows H;
    simpl in H.
  { by injection H as <-. }
  apply bind_ok in H as (lst & _ & H). apply bind_ok in H as (tl & Htl & H).
  injection H as <-. simpl. f_equal. by apply IH.
Qed.

(** Verification mode returns only when there is at least one query and
    the cut leaves every query with the same number of neighbours
    ([np.stack] refuses anything else). *)
Theorem postprocess_verify_stack image_ids (k : Z) (width : nat)
    (indices rows : list (list nat)) :
  postprocess true image_ids k width indices = Ok rows ↔
  cut_rows image_ids k indices = Ok rows ∧ indices ≠ [] ∧
  ∀ r1 r2, r1 ∈ rows → r2 ∈ rows → length r1 = length r2.
Proof.
  unfold postprocess. split.
  - intros H. apply bind_ok in H as (cut & Hcut & H).
    unfold np_stack in H. destruct cut as [|r rs]; [done|].
    destruct (forallb _ rs) eqn:Hall; [|done]. injection H as <-.
    split; [done|]. split.
    { intros ->. by apply cut_rows_length in Hcut. }
    assert (Hr : ∀ r', r' ∈ r :: rs → length r' = length r).
    { intros r' [->|Hr']%elem_of_cons; [done|].
      rewrite forallb_forall in Hall.
      by apply Nat.eqb_eq, Hall, list_elem_of_In. }
    intros r1 r2 H1 H2. by rewrite (Hr r1), (Hr r2).
  - intros (Hcut & Hne & Heq). rewrite Hcut. simpl.
    destruct rows as [|r rs].
    { apply cut_rows_length in Hcut. by destruct indices. }
    simpl. replace (forallb _ rs) with true; [done|].
    symmetry. apply forallb_forall. intros r' Hr'%list_elem_of_In.
    apply Nat.eqb_eq, Heq; [by right|left].
Qed.

End NeighborMore.

(** ** More on local matching *)

Module MatchingMore.
Import Matching MatchingFacts PipelineFacts.

Lemma filter_sublist {A : Type} (f : A → bool) (l : list A) :
  List.filter f l `sublist_of` l.
Proof.
  induction l as [|x l IH]; simpl; [done|].
  destruct (f x); by constructor.
Qed.

Lemma mapM_length {A B : Type} (f : A → res B) (l : list A) (l' : list B) :
  mapM f l = Ok l' → length l' = length l.
Proof.
  revert l'. induction l as [|x l IH]; intros l' H; simpl in H.
  { by injection H as <-. }
  inv_bind H. injection H as <-. simpl. f_equal. by apply IH.
Qed.

Lemma mapM_Forall2 {A B : Type} (f : A → res B) (l : list A) (l' : list B) :
  mapM f l = Ok l' → Forall2 (λ x y, f x = Ok y) l l'.
Proof.
  revert l'. induction l as [|x l IH]; intros l' H; simpl in H.
  { injection H as <-. constructor. }
  inv_bind H. injection H as <-. constructor; [done|]. by apply IH.
Qed.

Section DoubleMatching.
Context {D : Type}.
Variable matcher : list D → list D → list (nat * nat).

(** Bidirectional matching returns forward matches only, in the order of
    the forward matching and none of them twice as often; without a
    reverse match it returns nothing. *)
Theorem double_matching_sublist (query_desc neighbor_desc : list D) :
  double_matching matcher query_desc neighbor_desc
    `sublist_of` matcher query_desc neighbor_desc ∧
  (matcher neighbor_desc query_desc = [] →
   double_matching matcher query_desc neighbor_desc = []).
Proof.
  unfold double_matching. split.
  - destruct (_ || _); [apply sublist_nil_l|apply filter_sublist].
  - intros ->. simpl. by rewrite orb_true_r.
Qed.

(** A forward match (q, d) whose pair (d, q) is a reverse match is always
    kept, so bidirectional matching never drops a mutually consistent
    match. *)
Theorem double_matching_keeps_mutual (query_desc neighbor_desc : list D)
    (q d : nat) :
  (q, d) ∈ matcher query_desc neighbor_desc →
  (d, q) ∈ matcher neighbor_desc query_desc →
  (q, d) ∈ double_matching matcher query_desc neighbor_desc.
Proof.
  intros Hf Hr. unfold double_matching.
  destruct (matcher query_desc neighbor_desc) as [|f fs] eqn:Hfwd.
  { by apply elem_of_nil in Hf. }
  destruct (matcher neighbor_desc query_desc) as [|r rs] eqn:Hrev.
  { by apply elem_of_nil in Hr. }
  cbn [length Nat.eqb orb].
  apply list_elem_of_In, filter_In. split; [by apply list_elem_of_In|].
  apply bool_decide_eq_true, list_elem_of_fmap. by exists (d, q).
Qed.
End DoubleMatching.

Lemma double_matching_keeps_mutual_witness :
  (1, 0)%nat ∈ double_matching (nn_match 3 4) [[0]; [3]] [[2]; [-5]].
Proof.
  apply (double_matching_keeps_mutual (nn_match 3 4) [[0]; [3]] [[2]; [-5]]);
    apply (bool_decide_unpack _); vm_compute; exact I.
Defined.

Lemma np_take_elem {A : Type} (a : list A) (idx : list nat) (l : list A) :
  np_take a idx = Ok l → Forall (λ x, x ∈ a) l.
Proof.
  intros H%mapM_Forall2. induction H as [|i x idx l Hi _ IH]; constructor;
    [|done].
  apply item_ok in Hi. by eapply list_elem_of_lookup_2.
Qed.

Lemma mapM_item_elem {A : Type} (a : list A) (f : nat * nat → nat)
    (ms : list (nat * nat)) (l : list A) :
  mapM (λ m, item a (f m)) ms = Ok l → Forall (λ x, x ∈ a) l.
Proof.
  intros H%mapM_Forall2. induction H as [|i x idx l Hi _ IH]; constructor;
    [|done].
  apply item_ok in Hi. by eapply list_elem_of_lookup_2.
Qed.

Lemma select_valid_elem (ids : list Z) (id : Z) :
  id ∈ select ((λ p, 0 <? p) <$> ids) ids → id ∈ ids ∧ 0 < id.
Proof.
  induction ids as [|p ids IH]; simpl.
  { by intros ?%elem_of_nil. }
  destruct (Z.ltb_spec 0 p).
  - intros [->|Hin]%elem_of_cons.
    + split; [left|done].
    + destruct (IH Hin). split; [by right|done].
  - intros Hin. destruct (IH Hin). split; [by right|done].
Qed.

Section Invariants.
Context {D K XYZ : Type}.
Variable matcher : list D → list D → list (nat * nat).
Variable to_unit_vector : list D → list D.
Variable descriptors_from_colmap_db : Z → res (list D).
Variable neural_descriptors : Z → list bool → res (list D).

Abbreviation match_image :=
  (@match_image D K XYZ matcher to_unit_vector descriptors_from_colmap_db
     neural_descriptors).
Abbreviation match_local :=
  (@match_local D K XYZ matcher to_unit_vector descriptors_from_colmap_db
     neural_descriptors).
Abbreviation refilter_stage := (@refilter_stage D K XYZ matcher to_unit_vector).

Lemma match_image_ok (c : @config XYZ) (imgs : list Z) (query_desc : list D)
    (query_kpts : list K) (a a' : @acc D K) (img : Z) :
  img ∈ imgs → acc_ok c imgs a →
  match_image c query_desc query_kpts a img = Ok a' →
  acc_ok c imgs a'.
Proof.
  intros Himg (Hlen & Hpts & Hall). unfold Matching.match_image.
  destruct (verify c && (Z.abs img =? Z.abs (query_self c))) eqn:Hself.
  { by intros [= <-]. }
  intros H. apply bind_ok in H as (im & Him & H).
  unfold dict_get in Him.
  destruct (images c !! Z.abs img) as [im'|] eqn:Hlook; [|done].
  injection Him as ->.
  apply bind_ok in H as (data_desc & _ & H).
  assert (Hsel : ∀ p l, Forall (λ x, x ∈ select (valid_mask im)
                                          (point3D_ids im)) l →
                        p ∈ l → from_cluster c imgs p).
  { intros p l Hl Hp. rewrite Forall_forall in Hl.
    destruct (select_valid_elem _ _ (Hl p Hp)).
    by exists img, im. }
  destruct (Nat.ltb 0 (length _)); [|by injection H as <-].
  destruct (refilter c).
  - inv_bind H. injection H as <-. split; [done|]. split; [done|].
    cbn [pt_ids_all]. apply Forall_app. split; [done|]. constructor; [|done].
    apply Forall_forall. intros p Hp.
    eapply Hsel; [|exact Hp]. by eapply np_take_elem.
  - inv_bind H. injection H as <-.
    unfold acc_ok. cbn [matched_kpts_cv matched_pts pt_ids_all].
    split; [|split; [|done]].
    + rewrite !length_app, Hlen.
      apply mapM_length in Hx. apply mapM_length in Hx0. lia.
    + apply Forall_app. split; [done|].
      apply Forall_forall. intros p Hp.
      eapply Hsel; [|exact Hp].
      by eapply (mapM_item_elem _ (λ m, m.2)).
Qed.

Lemma foldM_match_image_ok (c : @config XYZ) (imgs : list Z)
    (query_desc : list D) (query_kpts : list K) (l : list Z)
    (a a' : @acc D K) :
  (∀ img, img ∈ l → img ∈ imgs) → acc_ok c imgs a →
  foldM (match_image c query_desc query_kpts) l a = Ok a' →
  acc_ok c imgs a'.
Proof.
  revert a. induction l as [|img l IH]; intros a Hsub Ha H; simpl in H.
  { by injection H as <-. }
  apply bind_ok in H as (a1 & H1 & H).
  apply (IH a1); [intros i Hi; apply Hsub; by right| |done].
  eapply match_image_ok; [|exact Ha|exact H1]. apply Hsub. left.
Qed.

Lemma refilter_stage_ok (c : @config XYZ) (imgs : list Z)
    (query_desc : list D) (query_kpts : list K)
    (gt : option (list bool * list Z)) (a : @acc D K)
    (ks : list K) (ps : list Z) (ci : Z * Z) :
  acc_ok c imgs a →
  refilter_stage c query_desc query_kpts gt a = Ok (ks, ps, ci) →
  length ks = length ps ∧ Forall (from_cluster c imgs) ps.
Proof.
  intros (Hlen & Hpts & Hall). unfold Matching.refilter_stage.
  destruct (_ || _); [by intros [= <- <- <-]|].
  intros H. inv_bind H. injection H as <- <- <-. split.
  - apply mapM_length in Hx. apply mapM_length in Hx0. lia.
  - apply (mapM_item_elem _ (λ m, m.2)) in Hx0.
    eapply Forall_impl; [exact Hx0|]. simpl. intros p Hp.
    apply list_elem_of_In, in_concat in Hp as (l & Hl & Hpl).
    apply list_elem_of_In in Hl, Hpl.
    rewrite Forall_forall in Hall. specialize (Hall l Hl).
    rewrite Forall_forall in Hall. by apply Hall.
Qed.

Lemma match_local_ok (c : @config XYZ) (query_desc : list D)
    (query_kpts : list K) (cluster_query : list (list Z))
    (r : @result K XYZ) :
  match_local c query_desc query_kpts cluster_query = Ok r →
  ∃ ps, length (matched_keypoints r) = length ps ∧
        Forall (from_cluster c (concat cluster_query)) ps ∧
        Forall2 (λ id x, points3d c !! id = Some x) ps (matched_pts_xyz r).
Proof.
  unfold Matching.match_local. intros H.
  apply bind_ok in H as (gt & _ & H).
  apply bind_ok in H as (a & Ha & H).
  rewrite foldM_concat in Ha.
  apply (foldM_match_image_ok c (concat cluster_query)) in Ha;
    [|done|by repeat split; constructor].
  apply bind_ok in H as ([[ks ps] ci] & Hstage & H).
  unfold lookup_points in H. apply bind_ok in H as (xyz & Hxyz & H).
  injection H as <-. simpl. exists ps.
  assert (length ks = length ps ∧
          Forall (from_cluster c (concat cluster_query)) ps) as [? ?].
  { destruct (refilter c).
    - by eapply refilter_stage_ok.
    - injection Hstage as <- <- _. by destruct Ha as (? & ? & _). }
  split; [done|]. split; [done|].
  apply mapM_Forall2 in Hxyz.
  eapply Forall2_impl; [exact Hxyz|]. simpl. intros id x Hid.
  unfold dict_get in Hid. by destruct (points3d c !! id) as [y|]; simplify_eq.
Qed.

(** Whatever the mode, [match_local] returns as many 3D points as
    keypoints: the two sequences handed to the pose solver are parallel. *)
Theorem match_local_parallel (c : @config XYZ) (query_desc : list D)
    (query_kpts : list K) (cluster_query : list (list Z))
    (r : @result K XYZ) :
  match_local c query_desc query_kpts cluster_query = Ok r →
  length (matched_pts_xyz r) = length (matched_keypoints r).
Proof.
  intros H. destruct (match_local_ok _ _ _ _ _ H) as (ps & Hlen & _ & Hxyz).
  apply Forall2_length in Hxyz. lia.
Qed.

(** Every 3D point [match_local] returns is the position of a valid
    (positive) 3D-point id of some image of the clusters, and in
    verification mode that image is not the query's own. *)
Theorem match_local_provenance (c : @config XYZ) (query_desc : list D)
    (query_kpts : list K) (cluster_query : list (list Z))
    (r : @result K XYZ) :
  match_local c query_desc query_kpts cluster_query = Ok r →
  Forall (λ x, ∃ id, points3d c !! id = Some x ∧
                     from_cluster c (concat cluster_query) id)
    (matched_pts_xyz r).
Proof.
  intros H. destruct (match_local_ok _ _ _ _ _ H) as (ps & _ & Hps & Hxyz).
  induction Hxyz as [|id x ps xyz Hid _ IH]; [constructor|].
  apply Forall_cons in Hps as [Hp Hps].
  constructor; [by exists id|by apply IH].
Qed.
End Invariants.

Import Demo.

Lemma match_local_parallel_witness :
  ∃ r, Matching.match_local (nn_match 3 4) id demo_db no_network demo_config
         [[40]; [9]] ["k0"; "k1"] [[1; 2]] = Ok r ∧
       length (matched_pts_xyz r) = length (matched_keypoints r).
Proof.
  destruct (Matching.match_local (nn_match 3 4) id demo_db no_network
              demo_config [[40]; [9]] ["k0"; "k1"] [[1; 2]])
    as [r|e] eqn:H; [|by vm_compute in H].
  exists r. split; [done|]. by eapply match_local_parallel.
Defined.

Lemma match_local_provenance_witness :
  ∃ r, Matching.match_local (nn_match 3 4) id demo_db no_network demo_config
         [[40]; [9]] ["k0"; "k1"] [[1; 2]] = Ok r ∧
       Forall (λ x, ∃ id, points3d demo_config !! id = Some x ∧
                          from_cluster demo_config (concat [[1; 2]]) id)
         (matched_pts_xyz r).
Proof.
  destruct (Matching.match_local (nn_match 3 4) id demo_db no_network
              demo_config [[40]; [9]] ["k0"; "k1"] [[1; 2]])
    as [r|e] eqn:H; [|by vm_compute in H].
  exists r. split; [done|]. by eapply match_local_provenance.
Defined.

End MatchingMore.

(** ** More on the per-query loop *)

Module PipelineMore.
Import Matching Pipeline PipelineFacts ClusterFacts ClusterMore MatchingMore.

Lemma build_clusters_mono image_ids (row : list nat) (m : gmap Z (gset Z))
    (st : gmap Z (gset Z) * list Z) :
  Cluster.build_clusters image_ids row m = Ok st →
  row ≠ [] ∧ ∀ k, Cluster.deref m k ⊆ Cluster.deref st.1 k.
Proof.
  unfold Cluster.build_clusters. intros H.
  destruct row as [|idx0 row]; [done|]. split; [done|].
  destruct (image_ids !! idx0) as [i0|]; [|done].
  destruct (m !! i0); [|done].
  by apply add_neighbors_inv in H as (_ & _ & Hmono & _).
Qed.

Section Facts.
Context {D K XYZ CM RV TV Pos Quat : Type}.
Variable matcher : list D → list D → list (nat * nat).
Variable to_unit_vector : list D → list D.
Variable descriptors_from_colmap_db : Z → res (list D).
Variable neural_descriptors : Z → list bool → res (list D).
Variable solvePnPRansac :
  list XYZ → list K → CM → float → bool * RV * TV * option (list nat).
Variable solvePnP :
  list XYZ → list K → CM → float → RV → TV → bool * RV * TV.
Variable pose_of : RV → TV → Pos * Quat.
Variable pose_error : image → Pos → Quat → float * float.
Variable rotate_position : Pos → Quat → Pos.
Variable query_path_of : string → string.
Variable fix_augmented : string → string.

Abbreviation solve_pose := (@solve_pose K XYZ CM RV TV Pos Quat
  solvePnPRansac solvePnP pose_of).
Abbreviation front := (@front D K XYZ CM Pos Quat matcher to_unit_vector
  descriptors_from_colmap_db neural_descriptors query_path_of).
Abbreviation intrinsics := (@intrinsics XYZ CM fix_augmented).
Abbreviation report := (@report D K XYZ CM Pos Quat pose_error
  rotate_position).
Abbreviation back := (@back D K XYZ CM RV TV Pos Quat solvePnPRansac
  solvePnP pose_of pose_error rotate_position fix_augmented).
Abbreviation query_body := (@query_body D K XYZ CM RV TV Pos Quat matcher
  to_unit_vector descriptors_from_colmap_db neural_descriptors
  solvePnPRansac solvePnP pose_of pose_error rotate_position query_path_of
  fix_augmented).
Abbreviation run_from := (@run_from D K XYZ CM RV TV Pos Quat matcher
  to_unit_vector descriptors_from_colmap_db neural_descriptors
  solvePnPRansac solvePnP pose_of pose_error rotate_position query_path_of
  fix_augmented).
Abbreviation local_matching := (@local_matching D K XYZ CM RV TV Pos Quat
  matcher to_unit_vector descriptors_from_colmap_db neural_descriptors
  solvePnPRansac solvePnP pose_of pose_error rotate_position query_path_of
  fix_augmented).

Lemma cluster_step_inv (a : args) (e : @env XYZ CM) (row : list nat)
    (m : gmap Z (gset Z)) (cl : gmap Z (gset Z) * list (list Z)) :
  cluster_step a e row m = Ok cl →
  row ≠ [] ∧ (cluster a = false → cl.1 = m) ∧
  ∀ k, Cluster.deref m k ⊆ Cluster.deref cl.1 k.
Proof.
  unfold cluster_step. destruct (cluster a); intros H; inv_bind H;
    injection H as <-; simpl.
  - apply build_clusters_mono in Hx as [? ?]. by repeat split.
  - split; [|by split]. unfold Cluster.top_k_cluster in Hx.
    by destruct row.
Qed.

(** What the first half of a turn changes. *)
Lemma front_inv (a : args) (e : @env XYZ CM) (st st1 : @state CM Pos Quat)
    (query_id : nat) (q : @query D K) (r : @Matching.result K XYZ)
    (path : string) :
  front a e st query_id q = Ok (st1, r, path) →
  cm st1 = cm st ∧ pose st1 = pose st ∧ out_file st1 = out_file st ∧
  inlier_nums st1 = inlier_nums st ∧ inlier_rates st1 = inlier_rates st ∧
  errors st1 = errors st ∧ errors_rot st1 = errors_rot st ∧
  (cluster a = false → img_cluster st1 = img_cluster st) ∧
  (∀ k, Cluster.deref (img_cluster st) k
        ⊆ Cluster.deref (img_cluster st1) k) ∧
  (if verify a
   then ∃ tn, top_neighbor_match st1 = top_neighbor_match st ++ [tn] ∧
              tn ≠ []
   else top_neighbor_match st1 = top_neighbor_match st).
Proof.
  intros H. unfold Pipeline.front in H.
  apply bind_ok in H as (p & _ & H).
  apply bind_ok in H as (row & _ & H).
  apply bind_ok in H as (tnm & Htnm & H).
  apply bind_ok in H as (cl & Hcl & H).
  apply bind_ok in H as (r' & _ & H).
  apply bind_ok in H as (lmr & _ & H).
  injection H as <- _ _. simpl.
  apply cluster_step_inv in Hcl as (Hrow & Hsame & Hmono).
  repeat split; try done.
  destruct (verify a); [|by injection Htnm as <-].
  apply bind_ok in Htnm as (tn & Htn & [= <-]).
  exists tn. split; [done|].
  apply mapM_length in Htn. destruct tn, row; simpl in *; done.
Qed.

(** What a whole turn changes. *)
Lemma query_body_inv (a : args) (e : @env XYZ CM)
    (st st' : @state CM Pos Quat) (query_id : nat) (q : @query D K) :
  query_body a e st query_id q = Ok st' →
  length (inlier_nums st') = S (length (inlier_nums st)) ∧
  length (inlier_rates st') = S (length (inlier_rates st)) ∧
  (cluster a = false → img_cluster st' = img_cluster st) ∧
  (∀ k, Cluster.deref (img_cluster st) k
        ⊆ Cluster.deref (img_cluster st') k) ∧
  (is_Some (cm st) → is_Some (cm st')) ∧
  (if verify a
   then out_file st' = out_file st ∧
        length (errors st') = S (length (errors st)) ∧
        length (errors_rot st') = S (length (errors_rot st)) ∧
        ∃ tn, top_neighbor_match st' = top_neighbor_match st ++ [tn] ∧
              tn ≠ []
   else errors st' = errors st ∧ errors_rot st' = errors_rot st ∧
        top_neighbor_match st' = top_neighbor_match st ∧
        (out_file st' = out_file st ∨
         ∃ quat position,
           out_file st' = out_file st ++ [(q_name q, quat, position)])).
Proof.
  unfold Pipeline.query_body. intros H.
  apply bind_ok in H as ([[st1 r] path] & Hfront & H).
  apply front_inv in Hfront
    as (Hcm & _ & Ho & Hn & Hr & He & Her & Hsame & Hmono & Htn).
  unfold Pipeline.back in H.
  apply bind_ok in H as ([[cmx dist] cm1] & Hi & H).
  apply bind_ok in H as (s & _ & H).
  assert (Hcm1 : is_Some (cm st) → is_Some cm1).
  { rewrite <- Hcm. unfold Pipeline.intrinsics in Hi.
    destruct (camera_matrices e !! fix_augmented path);
      destruct (cm st1); simplify_eq/=; eauto. }
  unfold Pipeline.report in H. simpl in H.
  destruct (verify a).
  - inv_bind H.
    destruct (match new_pose s with Some p => Some p | None => pose st1 end)
      as [[position quat]|]; [|done].
    destruct (pose_error x0 position quat) as [err rot].
    injection H as <-. simpl.
    rewrite !length_app, Hn, Hr, He, Her. simpl.
    repeat split; try done; lia.
  - destruct (success s).
    + destruct (match new_pose s with Some p => Some p | None => pose st1 end)
        as [[position quat]|]; [|done].
      injection H as <-. simpl.
      rewrite !length_app, Hn, Hr, Ho. simpl.
      repeat split; try done; try lia. right. by eexists _, _.
    + injection H as <-. simpl.
      rewrite !length_app, Hn, Hr. simpl.
      repeat split; try done; try lia. by left.
Qed.

Lemma run_from_inv (a : args) (e : @env XYZ CM) (queries : list (@query D K))
    (query_id : nat) (st st' : @state CM Pos Quat) :
  run_from a e query_id queries st = Ok st' →
  length (inlier_nums st') = (length (inlier_nums st) + length queries)%nat ∧
  length (inlier_rates st') = (length (inlier_rates st) + length queries)%nat ∧
  (cluster a = false → img_cluster st' = img_cluster st) ∧
  (∀ k, Cluster.deref (img_cluster st) k
        ⊆ Cluster.deref (img_cluster st') k) ∧
  (if verify a
   then out_file st' = out_file st ∧
        length (errors st') = (length (errors st) + length queries)%nat ∧
        length (errors_rot st')
        = (length (errors_rot st) + length queries)%nat ∧
        ∃ tns, top_neighbor_match st' = top_neighbor_match st ++ tns ∧
               length tns = length queries ∧ Forall (λ tn, tn ≠ []) tns
   else errors st' = errors st ∧ errors_rot st' = errors_rot st ∧
        top_neighbor_match st' = top_neighbor_match st ∧
        ∃ lines, out_file st' = out_file st ++ lines ∧
                 (λ l : string * Quat * Pos, l.1.1) <$> lines
                   `sublist_of` (q_name <$> queries)).
Proof.
  revert query_id st.
  induction queries as [|q queries IH]; intros query_id st H; simpl in H.
  { injection H as <-. rewrite !Nat.add_0_r. repeat split; try done.
    destruct (verify a).
    - repeat split; try done. exists []. by rewrite app_nil_r.
    - repeat split; try done. exists []. by rewrite app_nil_r. }
  apply bind_ok in H as (st1 & H1 & H).
  apply query_body_inv in H1 as (Hn1 & Hr1 & Hs1 & Hm1 & _ & Hv1).
  apply IH in H as (Hn & Hr & Hs & Hm & Hv).
  simpl. split; [lia|]. split; [lia|].
  split; [intros Hc; by rewrite Hs, Hs1|].
  split; [intros k; etrans; [apply Hm1|apply Hm]|].
  destruct (verify a).
  - destruct Hv1 as (Ho1 & He1 & Her1 & tn & Htn1 & Hne).
    destruct Hv as (Ho & He & Her & tns & Htn & Hlen & Hall).
    split; [by rewrite Ho|]. split; [lia|]. split; [lia|].
    exists (tn :: tns). rewrite Htn, Htn1, <- app_assoc. simpl.
    split; [done|]. split; [by f_equal|by constructor].
  - destruct Hv1 as (He1 & Her1 & Htn1 & Hout1).
    destruct Hv as (He & Her & Htn & lines & Hout & Hsub).
    split; [by rewrite He|]. split; [by rewrite Her|].
    split; [by rewrite Htn|].
    destruct Hout1 as [Ho1|(quat & position & Ho1)].
    + exists lines. rewrite Hout, Ho1. split; [done|]. by constructor.
    + exists ((q_name q, quat, position) :: lines).
      rewrite Hout, Ho1, <- app_assoc. split; [done|].
      rewrite fmap_cons. simpl. by constructor.
Qed.

(** A run that returns has recorded one inlier count and one inlier rate
    per query; in verification mode also one translation error, one
    rotation error and one non-empty row of neighbour matches per query,
    and otherwise none of these. *)
Theorem statistics_per_query (a : args) (e : @env XYZ CM)
    (m : gmap Z (gset Z)) (queries : list (@query D K))
    (st : @state CM Pos Quat) :
  local_matching a e m queries = Ok st →
  length (inlier_nums st) = length queries ∧
  length (inlier_rates st) = length queries ∧
  (if verify a
   then length (errors st) = length queries ∧
        length (errors_rot st) = length queries ∧
        length (top_neighbor_match st) = length queries ∧
        Forall (λ tn, tn ≠ []) (top_neighbor_match st)
   else errors st = [] ∧ errors_rot st = [] ∧ top_neighbor_match st = []).
Proof.
  unfold Pipeline.local_matching. intros H.
  apply run_from_inv in H as (Hn & Hr & _ & _ & Hv). simpl in *.
  split; [done|]. split; [done|].
  destruct (verify a); [|by destruct Hv as (? & ? & ? & _)].
  destruct Hv as (_ & He & Her & tns & -> & Hlen & Hall). by repeat split.
Qed.


(** [img_cluster] after a run: no set has lost a member, and without
    [--cluster] the map is the one the run started from. *)
Theorem img_cluster_after_run (a : args) (e : @env XYZ CM)
    (m : gmap Z (gset Z)) (queries : list (@query D K))
    (st : @state CM Pos Quat) :
  local_matching a e m queries = Ok st →
  (cluster a = false → img_cluster st = m) ∧
  ∀ k, Cluster.deref m k ⊆ Cluster.deref (img_cluster st) k.
Proof.
  unfold Pipeline.local_matching. intros H.
  by apply run_from_inv in H as (_ & _ & Hs & Hm & _).
Qed.

(** [cm] after a turn is the entry of this query if its path is known,
    and otherwise still the entry of the last query whose path was known:
    that entry supplies the distortion coefficient of later queries
    without intrinsics. *)
Theorem cm_after_turn (a : args) (e : @env XYZ CM)
    (st st1 st' : @state CM Pos Quat) (query_id : nat) (q : @query D K)
    (r : @Matching.result K XYZ) (path : string) :
  front a e st query_id q = Ok (st1, r, path) →
  query_body a e st query_id q = Ok st' →
  cm st' = match camera_matrices e !! fix_augmented path with
           | Some entry => Some entry
           | None => cm st
           end ∧
  is_Some (cm st').
Proof.
  intros Hfront H. unfold Pipeline.query_body in H. rewrite Hfront in H.
  simpl in H. apply front_inv in Hfront as (Hcm & _).
  unfold Pipeline.back in H.
  apply bind_ok in H as ([[cmx dist] cm1] & Hi & H).
  apply bind_ok in H as (s & _ & H).
  assert (Hcm1 : cm1 = match camera_matrices e !! fix_augmented path with
                       | Some entry => Some entry
                       | None => cm st
                       end ∧ is_Some cm1).
  { rewrite <- Hcm. unfold Pipeline.intrinsics in Hi.
    destruct (camera_matrices e !! fix_augmented path);
      destruct (cm st1); simplify_eq/=; eauto. }
  unfold Pipeline.report in H. simpl in H.
  destruct (verify a).
  - inv_bind H.
    destruct (match new_pose s with Some p => Some p | None => pose st1 end)
      as [[position quat]|]; [|done].
    destruct (pose_error x0 position quat) as [err rot].
    by injection H as <-.
  - destruct (success s).
    + destruct (match new_pose s with Some p => Some p | None => pose st1 end)
        as [[position quat]|]; [|done].
      by injection H as <-.
    + by injection H as <-.
Qed.

End Facts.

Lemma reasons_total (errors errors_rot : list float)
    (top_neighbor_match : list (list float)) (inlier_rates : list float)
    (inlier_nums : list Z) :
  length errors_rot = length errors →
  length top_neighbor_match = length errors →
  length inlier_rates = length errors →
  length inlier_nums = length errors →
  Forall (λ row, row ≠ []) top_neighbor_match →
  ∃ res, Stats.reasons errors errors_rot top_neighbor_match inlier_rates
           inlier_nums = Ok res.
Proof.
  intros H1 H2 H3 H4 Hrows.
  destruct (StatsFacts.samples_ok errors errors_rot top_neighbor_match
              inlier_rates inlier_nums H1 H2 H3 H4 Hrows)
    as (ss & Hss & Hne & _).
  destruct (StatsFacts.mapM_classify_ok ss Hne)
    as (fs & Hfs & _ & _ & Hfi & Hli & Hot).
  unfold Stats.reasons. rewrite Hss. simpl.
  destruct (existsb _ ss); [|eauto].
  rewrite Hfs. simpl.
  rewrite (StatsFacts.np_sum_split Stats.fi Stats.fii Stats.fic fs Hfi),
    (StatsFacts.np_sum_split Stats.li Stats.lii Stats.lic fs Hli),
    (StatsFacts.np_sum_split Stats.ot Stats.oti Stats.otc fs Hot),
    !Z.eqb_refl.
  simpl. eauto.
Qed.

Section Compose.
Context {D K XYZ CM RV TV Pos Quat : Type}.
Variable matcher : list D → list D → list (nat * nat).
Variable to_unit_vector : list D → list D.
Variable descriptors_from_colmap_db : Z → res (list D).
Variable neural_descriptors : Z → list bool → res (list D).
Variable solvePnPRansac :
  list XYZ → list K → CM → float → bool * RV * TV * option (list nat).
Variable solvePnP :
  list XYZ → list K → CM → float → RV → TV → bool * RV * TV.
Variable pose_of : RV → TV → Pos * Quat.
Variable pose_error : image → Pos → Quat → float * float.
Variable rotate_position : Pos → Quat → Pos.
Variable query_path_of : string → string.
Variable fix_augmented : string → string.

(** The arrays a verification run returns always fit the failure
    statistics: [reasons] neither meets arrays of different lengths nor an
    empty row of neighbour matches, and none of its assertions fires. *)
Theorem run_feeds_reasons (a : args) (e : @env XYZ CM)
    (m : gmap Z (gset Z)) (queries : list (@query D K))
    (st : @state CM Pos Quat) :
  verify a = true →
  Pipeline.local_matching matcher to_unit_vector descriptors_from_colmap_db
    neural_descriptors solvePnPRansac solvePnP pose_of pose_error
    rotate_position query_path_of fix_augmented a e m queries = Ok st →
  ∃ res, Stats.reasons (errors st) (errors_rot st) (top_neighbor_match st)
           (inlier_rates st) (inlier_nums st) = Ok res.
Proof.
  intros Hv H. unfold Pipeline.local_matching in H.
  apply run_from_inv in H as (Hn & Hr & _ & _ & Hverify).
  rewrite Hv in Hverify. simpl in *.
  destruct Hverify as (_ & He & Her & tns & Htn & Hlen & Hall).
  apply reasons_total; rewrite ?Htn; try done; lia.
Qed.
End Compose.

Import Demo.

Lemma statistics_per_query_witness :
  ∃ st, rich_run true [rich_query; rich_query] = Ok st ∧
        length (inlier_nums st) = 2%nat ∧ length (errors st) = 2%nat ∧
        Forall (λ tn, tn ≠ []) (top_neighbor_match st).
Proof.
  destruct (rich_run true [rich_query; rich_query]) as [st|err] eqn:H;
    [|by vm_compute in H].
  exists st. split; [done|]. unfold rich_run in H.
  apply statistics_per_query in H as (Hn & _ & He & _ & _ & Htn).
  by repeat split.
Defined.


Lemma img_cluster_after_run_witness :
  ∃ st, rich_run false [rich_query] = Ok st ∧
        ∀ k, Cluster.deref demo_img_cluster k
             ⊆ Cluster.deref (img_cluster st) k.
Proof.
  destruct (rich_run false [rich_query]) as [st|err] eqn:H;
    [|by vm_compute in H].
  exists st. split; [done|]. unfold rich_run in H.
  by apply img_cluster_after_run in H as [_ ?].
Defined.

Lemma cm_after_turn_witness :
  ∃ st, rich_run false [rich_query] = Ok st ∧
        cm st = Some (tt, 0.5%float).
Proof.
  destruct (rich_run false [rich_query]) as [st|err] eqn:H;
    [|by vm_compute in H].
  exists st. split; [done|].
  unfold rich_run, Pipeline.local_matching in H. cbn [Pipeline.run_from] in H.
  apply bind_ok in H as (st' & Hbody & H). injection H as ->.
  destruct (@Pipeline.front (list Z) string Z unit Z Z (nn_match 3 4) id
              rich_db no_network id (demo_args false) rich_env
              (init_state demo_img_cluster) 0 rich_query)
    as [[[st1 r] path]|err] eqn:Hf; [|by vm_compute in Hf].
  destruct (cm_after_turn _ _ _ _ _ _ _ _ _ _ _ _ _ _ _ _ _ _ _ _ Hf Hbody)
    as [-> _].
  vm_compute in Hf. by injection Hf as _ _ <-.
Defined.

Lemma run_feeds_reasons_witness :
  ∃ st res,
    rich_run true [rich_query; rich_query] = Ok st ∧
    Stats.reasons (errors st) (errors_rot st) (top_neighbor_match st)
      (inlier_rates st) (inlier_nums st) = Ok res.
Proof.
  destruct (rich_run true [rich_query; rich_query]) as [st|err] eqn:H;
    [|by vm_compute in H].
  unfold rich_run in H.
  destruct (run_feeds_reasons (nn_match 3 4) id rich_db no_network
              demo_ransac demo_refine demo_pose demo_error demo_rotate id id
              (demo_args true) rich_env demo_img_cluster
              [rich_query; rich_query] st eq_refl H) as [res Hres].
  exists st, res. split; [reflexivity|exact Hres].
Defined.

End PipelineMore.

(** ** The verification count, the neighbour overlap, dataset indexing *)

Module EdgeFacts.
Import Matching Pipeline PipelineFacts.

Section Count.
Context {XYZ : Type}.

Lemma count_correct_raises (valid_o : list bool) (pt_ids_o pool_ids : list Z)
    (matches : list (nat * nat)) (ci : Z * Z) (e : exn) :
  count_correct valid_o pt_ids_o pool_ids matches ci = Raise e →
  e = IndexError.
Proof.
  revert ci. induction matches as [|[m1 m2] matches IH]; intros ci; simpl;
    [done|].
  unfold item. destruct (valid_o !! m1) as [[|]|]; simpl;
    [|apply IH|congruence].
  destruct (pt_ids_o !! m1); simpl; [|congruence].
  destruct (pool_ids !! m2); simpl; [apply IH|congruence].
Qed.

Lemma count_correct_bad (valid_o : list bool) (pt_ids_o pool_ids : list Z)
    (matches : list (nat * nat)) (ci : Z * Z) (m1 m2 : nat) :
  (m1, m2) ∈ matches → valid_o !! m1 = Some true → pt_ids_o !! m1 = None →
  count_correct valid_o pt_ids_o pool_ids matches ci = Raise IndexError.
Proof.
  intros Hin Hv Hp. revert ci.
  induction matches as [|[n1 n2] matches IH]; intros ci.
  { by apply elem_of_nil in Hin. }
  apply elem_of_cons in Hin as [[= <- <-]|Hin].
  - simpl. unfold item. by rewrite Hv, Hp.
  - destruct (count_correct valid_o pt_ids_o pool_ids ((n1, n2) :: matches) ci)
      as [x|e] eqn:H.
    + exfalso. simpl in H. unfold item in H.
      destruct (valid_o !! n1) as [[|]|]; simpl in H; [| |done].
      * destruct (pt_ids_o !! n1); simpl in H; [|done].
        destruct (pool_ids !! n2); simpl in H; [|done].
        by rewrite IH in H.
      * by rewrite IH in H.
    + f_equal. by eapply count_correct_raises.
Qed.

(** Verification mode with colmap features keeps the first half of the
    query's 3D-point ids only, but tests validity on all of them: a
    refiltered match at a keypoint of the second half that has a valid 3D
    point ends the count with an [IndexError]. *)
Theorem verification_count_bounds (c : @config XYZ) (valid_o : list bool)
    (pt_ids_o : list Z) :
  ground_truth c = Ok (Some (valid_o, pt_ids_o)) →
  length pt_ids_o = (length valid_o / 2)%nat ∧
  ∀ pool_ids matches ci m1 m2,
    (m1, m2) ∈ matches → valid_o !! m1 = Some true →
    (length valid_o / 2 ≤ m1)%nat →
    count_correct valid_o pt_ids_o pool_ids matches ci = Raise IndexError.
Proof.
  unfold ground_truth. destruct (_ && _); [|done]. intros H.
  apply bind_ok in H as (im & _ & [= <- <-]).
  assert (Hlen : length (take (length (point3D_ids im) / 2)
                           (point3D_ids im))
                 = (length (valid_mask im) / 2)%nat).
  { unfold valid_mask. rewrite length_take, length_fmap.
    assert (length (point3D_ids im) / 2 ≤ length (point3D_ids im))%nat
      by (apply Nat.Div0.div_le_upper_bound; lia).
    lia. }
  split; [done|].
  intros pool_ids matches ci m1 m2 Hin Hv Hm1.
  eapply count_correct_bad; [exact Hin|exact Hv|].
  apply lookup_ge_None. rewrite <- Hlen in Hm1. exact Hm1.
Qed.
End Count.

Import Demo.

Lemma verification_count_bounds_witness :
  let c : @config Z :=
    mk_config true Colmap false true false 1
      (<[1 := mk_image "db/1.jpg" [101; 102; 103; 104]]> ∅) ∅ in
  ground_truth c = Ok (Some ([true; true; true; true], [101; 102])) ∧
  count_correct [true; true; true; true] [101; 102] [101; 103]
    [(0, 0); (2, 1)]%nat (0, 0) = Raise IndexError.
Proof.
  intros c.
  destruct (verification_count_bounds c [true; true; true; true] [101; 102])
    as [_ H]; [reflexivity|].
  split; [reflexivity|].
  apply (H _ _ _ 2%nat 1%nat); [set_solver|reflexivity|simpl; lia].
Defined.

(** [calc_neighbor_match] raises a [KeyError] when one of the two images
    is unknown, a [ZeroDivisionError] when one of them has no valid 3D
    point, and in no other case. *)
Theorem calc_neighbor_match_errors (images : gmap Z image)
    (img_idx neighbor_idx : Z) (e : exn) :
  calc_neighbor_match images img_idx neighbor_idx = Raise e ↔
  (e = KeyError ∧
   (images !! img_idx = None ∨ images !! neighbor_idx = None)) ∨
  (e = ZeroDivisionError ∧
   ∃ oimg nimg, images !! img_idx = Some oimg ∧
                images !! neighbor_idx = Some nimg ∧
                (Forall (λ p, p ≤ 0) (point3D_ids oimg) ∨
                 Forall (λ p, p ≤ 0) (point3D_ids nimg))).
Proof.
  assert (Hzero : ∀ ids : list Z,
    length (List.filter (λ p, 0 <? p) ids) = 0%nat ↔
    Forall (λ p, p ≤ 0) ids).
  { induction ids as [|p ids IH]; simpl; [by split|].
    destruct (Z.ltb_spec 0 p); simpl.
    - split; [done|]. intros [? _]%Forall_cons. lia.
    - rewrite IH. split; [by constructor|by intros [_ ?]%Forall_cons]. }
  unfold calc_neighbor_match, dict_get, percentage.
  destruct (images !! img_idx) as [oimg|]; simpl.
  2:{ split; [intros [= <-]; left; by split; [|left]|].
      intros [[-> _]|(_ & ? & ? & ? & _)]; done. }
  destruct (images !! neighbor_idx) as [nimg|]; simpl.
  2:{ split; [intros [= <-]; left; by split; [|right]|].
      intros [[-> _]|(_ & ? & ? & _ & ? & _)]; done. }
  destruct (Z.eqb_spec
              (Z.min (Z.of_nat (length (List.filter (λ p, 0 <? p)
                                          (point3D_ids oimg))))
                     (Z.of_nat (length (List.filter (λ p, 0 <? p)
                                          (point3D_ids nimg))))) 0)
    as [Hmin|Hmin].
  - split.
    + intros [= <-]. right. split; [done|]. exists oimg, nimg.
      split; [done|]. split; [done|]. rewrite <- !Hzero. lia.
    + intros [[_ [?|?]]|[-> _]]; done.
  - split; [done|].
    intros [[_ [?|?]]|(_ & o & n & [= <-] & [= <-] & Hno)]; try done.
    exfalso. apply Hmin. rewrite <- !Hzero in Hno. lia.
Qed.

End EdgeFacts.

(** ** [PointCloudSplit]: construction errors, sizes and indexing *)

Module SplitMore.
Import PointCloudSplit SplitFacts.

Section Index.
Context {A : Type}.
Implicit Types (pl : list A) (val : bool) (split : Z).

Lemma py_getitem_out (B : Type) (l : list B) (i : Z) :
  i < - Z.of_nat (length l) ∨ Z.of_nat (length l) ≤ i →
  py_getitem l i = Raise IndexError.
Proof.
  intros Hi. unfold py_getitem.
  destruct (Z.ltb_spec i 0); simpl;
    destruct (Z.ltb_spec (Z.of_nat (length l) + i) 0);
    destruct (Z.ltb_spec i 0);
    destruct (Z.leb_spec (Z.of_nat (length l)) i);
    destruct (Z.leb_spec (Z.of_nat (length l)) (Z.of_nat (length l) + i));
    simpl; try done; lia.
Qed.

Lemma py_getitem_in (B : Type) (l : list B) (i : Z) :
  - Z.of_nat (length l) ≤ i < Z.of_nat (length l) →
  ∃ x, py_getitem l i = Ok x ∧
       l !! Z.to_nat (if i <? 0 then Z.of_nat (length l) + i else i) = Some x.
Proof.
  intros Hi. unfold py_getitem.
  set (j := if i <? 0 then Z.of_nat (length l) + i else i).
  assert (Hj : 0 ≤ j < Z.of_nat (length l)).
  { unfold j. destruct (Z.ltb_spec i 0); lia. }
  destruct (Z.ltb_spec j 0); [lia|].
  destruct (Z.leb_spec (Z.of_nat (length l)) j); [lia|]. simpl.
  destruct (lookup_lt_is_Some_2 l (Z.to_nat j) ltac:(lia)) as [x Hx].
  rewrite Hx. by exists x.
Qed.

Lemma py_getitem_wrap (B : Type) (l : list B) (i : Z) :
  - Z.of_nat (length l) ≤ i < 0 →
  py_getitem l i = py_getitem l (Z.of_nat (length l) + i).
Proof.
  intros Hi. unfold py_getitem. cbv zeta.
  rewrite (proj2 (Z.ltb_lt i 0)) by lia. cbv iota.
  repeat (rewrite (proj2 (Z.ltb_ge (Z.of_nat (length l) + i) 0)) by lia;
          cbv iota).
  reflexivity.
Qed.

Lemma init_inv pl val split (d : t A) :
  init pl val split = Ok d →
  d = mk pl (List.filter (selects val split) (seq 0 (length pl))).
Proof.
  unfold init. destruct (_ && _); [done|].
  intros [= <-]. by rewrite init_step_filter.
Qed.

(** [PointCloudSplit.__init__] fails in one case only: a split value of 0
    on a point list that is not empty, with a [ZeroDivisionError].  On the
    empty list every split value gives the empty dataset. *)
Theorem init_raises pl val split (e : exn) :
  (init pl val split = Raise e ↔
   e = ZeroDivisionError ∧ split = 0 ∧ pl ≠ []) ∧
  (pl = [] → ∃ d, init pl val split = Ok d ∧ len d = 0%nat).
Proof.
  split.
  - unfold init. destruct (Z.eqb_spec split 0) as [->|Hs]; simpl.
    + destruct pl as [|a pl]; simpl.
      * split; [done|]. by intros (_ & _ & ?).
      * split; [by intros [= <-]|]. by intros (-> & _ & _).
    + split; [done|]. by intros (_ & ? & _).
  - intros ->. unfold init. rewrite andb_false_r. by eexists.
Qed.

(** A dataset built by [__init__] answers every index from [-len] to
    [len - 1] with a point of the list, a negative index counting from the
    end, and every other index with an [IndexError]. *)
Theorem getitem_index pl val split (d : t A) (index : Z) :
  init pl val split = Ok d →
  (- Z.of_nat (len d) ≤ index < Z.of_nat (len d) →
   ∃ x, getitem d index = Ok x ∧ x ∈ pl) ∧
  (- Z.of_nat (len d) ≤ index < 0 →
   getitem d index = getitem d (Z.of_nat (len d) + index)) ∧
  (index < - Z.of_nat (len d) ∨ Z.of_nat (len d) ≤ index →
   getitem d index = Raise IndexError).
Proof.
  intros Hd. apply init_inv in Hd. split; [|split].
  - intros Hi. unfold getitem, len in *.
    destruct (py_getitem_in _ (idcs d) index Hi) as (j & -> & Hj). simpl.
    apply list_elem_of_lookup_2 in Hj. rewrite Hd in Hj. simpl in Hj.
    apply elem_of_selected in Hj as [Hj _].
    destruct (lookup_lt_is_Some_2 pl j Hj) as [x Hx].
    exists x. split; [|by eapply list_elem_of_lookup_2].
    rewrite Hd. simpl. by apply py_getitem_nat.
  - intros Hi. unfold getitem, len in *. by rewrite py_getitem_wrap.
  - intros Hi. unfold getitem, len in *. by rewrite py_getitem_out.
Qed.

Lemma count_multiples (s : Z) (n : nat) :
  1 ≤ s →
  Z.of_nat (length (List.filter (selects true s) (seq 0 n)))
  = (Z.of_nat n + s - 1) / s.
Proof.
  intros Hs. induction n as [|n IH].
  - simpl. symmetry. apply Z.div_small. lia.
  - rewrite seq_S, List.filter_app, length_app, Nat2Z.inj_add, IH.
    change (0 + n)%nat with n. rewrite Nat2Z.inj_succ.
    pose proof (Z.div_mod (Z.of_nat n) s ltac:(lia)) as Hdm.
    pose proof (Z.mod_pos_bound (Z.of_nat n) s ltac:(lia)) as Hb.
    assert (H1 : (Z.of_nat n + s - 1) / s
                 = if Z.of_nat n mod s =? 0 then Z.of_nat n / s
                   else Z.of_nat n / s + 1).
    { destruct (Z.eqb_spec (Z.of_nat n mod s) 0) as [Hr|Hr]; symmetry.
      - apply (Z.div_unique _ s _ (s - 1)); lia.
      - apply (Z.div_unique _ s _ (Z.of_nat n mod s - 1)); lia. }
    assert (H2 : (Z.succ (Z.of_nat n) + s - 1) / s = Z.of_nat n / s + 1).
    { symmetry. apply (Z.div_unique _ s _ (Z.of_nat n mod s)); lia. }
    rewrite H1, H2. cbn [List.filter]. unfold selects.
    destruct (Z.of_nat n mod s =? 0); simpl; lia.
Qed.

(** For a split value of at least 1 the validation dataset has
    [ceil(n / split)] items and the training dataset the other
    [n - ceil(n / split)] of the [n] points; with a split value of 1 the
    training dataset is empty. *)
Theorem split_sizes pl split (dv dt : t A) :
  1 ≤ split →
  init pl true split = Ok dv → init pl false split = Ok dt →
  Z.of_nat (len dv) = (Z.of_nat (length pl) + split - 1) / split ∧
  Z.of_nat (len dt)
  = Z.of_nat (length pl) - (Z.of_nat (length pl) + split - 1) / split ∧
  (split = 1 → len dt = 0%nat).
Proof.
  intros Hs Hv Ht. apply init_inv in Hv, Ht. subst dv dt. unfold len. simpl.
  pose proof (count_multiples split (length pl) Hs) as Hc.
  assert (Hsum : (length (List.filter (selects true split)
                            (seq 0 (length pl)))
                  + length (List.filter (selects false split)
                              (seq 0 (length pl))) = length pl)%nat).
  { transitivity (length (seq 0 (length pl))); [|apply length_seq].
    rewrite <- (filter_length (selects true split) (seq 0 (length pl))).
    f_equal. f_equal. apply filter_ext. intros i. unfold selects.
    by destruct (Z.of_nat i mod split =? 0). }
  split; [done|]. split; [lia|].
  intros ->. rewrite Z.div_1_r in Hc. lia.
Qed.

End Index.

Lemma getitem_index_witness :
  ∃ d : t Z, init [10; 11; 12; 13; 14] false 2 = Ok d ∧
    getitem d (-1) = Ok 13 ∧ getitem d 2 = Raise IndexError.
Proof.
  destruct (init [10; 11; 12; 13; 14] false 2) as [d|e] eqn:H;
    [|by vm_compute in H].
  exists d. split; [done|].
  destruct (getitem_index _ _ _ d (-1) H) as (_ & Hw & _).
  destruct (getitem_index _ _ _ d 2 H) as (_ & _ & Ho).
  vm_compute in H. injection H as <-.
  split; [rewrite Hw by (vm_compute; split; congruence); reflexivity|].
  apply Ho. right. vm_compute. congruence.
Defined.

Lemma split_sizes_witness :
  ∃ dv dt : t Z,
    init [10; 11; 12; 13; 14] true 2 = Ok dv ∧
    init [10; 11; 12; 13; 14] false 2 = Ok dt ∧
    len dv = 3%nat ∧ len dt = 2%nat.
Proof.
  destruct (init [10; 11; 12; 13; 14] true 2) as [dv|e] eqn:Hv;
    [|by vm_compute in Hv].
  destruct (init [10; 11; 12; 13; 14] false 2) as [dt|e] eqn:Ht;
    [|by vm_compute in Ht].
  exists dv, dt. split; [done|]. split; [done|].
  destruct (split_sizes _ 2 dv dt ltac:(lia) Hv Ht) as (H1 & H2 & _).
  split; apply Nat2Z.inj; [rewrite H1|rewrite H2]; reflexivity.
Defined.

End SplitMore.

(** ** The benchmark percentages *)

Module ReportFacts.
Import Report SpecFloat FloatOps FloatAxioms.

(** Comparison against two positive constants of different binary
    exponent: what is at most the smaller one is at most the larger. *)
Lemma leb_const_mono (x a b : float) (ma mb : positive) (ea eb : Z) :
  Prim2SF a = S754_finite false ma ea →
  Prim2SF b = S754_finite false mb eb →
  ea < eb →
  PrimFloat.leb x a = true → PrimFloat.leb x b = true.
Proof.
  intros Ha Hb He. rewrite !leb_spec, Ha, Hb.
  unfold SFleb, SFcompare.
  destruct (Prim2SF x) as [s|s| |s m e]; try done.
  destruct s; [done|].
  destruct (Z.compare_spec e ea), (Z.compare_spec e eb); try done; lia.
Qed.

Lemma tier_step_nested day (acc : nat * nat * nat) (tq : float * float) :
  (acc.1.1 ≤ acc.1.2 ≤ acc.2)%nat →
  ((tier_step day acc tq).1.1 ≤ (tier_step day acc tq).1.2
   ≤ (tier_step day acc tq).2)%nat ∧
  ((tier_step day acc tq).2 ≤ S acc.2)%nat.
Proof.
  destruct acc as [[h m] c], tq as [t q]. cbn [fst snd]. intros Hacc.
  unfold tier_step. cbn [fst snd].
  pose proof (leb_const_mono t 0.25 0.5 _ _ _ _ eq_refl eq_refl eq_refl)
    as Ht1.
  pose proof (leb_const_mono t 0.5 1.0 _ _ _ _ eq_refl eq_refl eq_refl)
    as Ht2.
  pose proof (leb_const_mono t 0.5 5.0 _ _ _ _ eq_refl eq_refl eq_refl)
    as Ht3.
  pose proof (leb_const_mono t 1.0 5.0 _ _ _ _ eq_refl eq_refl eq_refl)
    as Ht4.
  pose proof (leb_const_mono q 2.0 5.0 _ _ _ _ eq_refl eq_refl eq_refl)
    as Hq1.
  pose proof (leb_const_mono q 5.0 10.0 _ _ _ _ eq_refl eq_refl eq_refl)
    as Hq2.
  destruct day, (PrimFloat.leb t 0.25), (PrimFloat.leb t 0.5),
    (PrimFloat.leb t 1.0), (PrimFloat.leb t 5.0), (PrimFloat.leb q 2.0),
    (PrimFloat.leb q 5.0), (PrimFloat.leb q 10.0); cbn;
    try (split; lia);
    try (by specialize (Ht1 eq_refl)); try (by specialize (Ht2 eq_refl));
    try (by specialize (Ht3 eq_refl)); try (by specialize (Ht4 eq_refl));
    try (by specialize (Hq1 eq_refl)); try (by specialize (Hq2 eq_refl)).
Qed.

Lemma fold_tier_nested day (l : list (float * float))
    (acc : nat * nat * nat) :
  (acc.1.1 ≤ acc.1.2 ≤ acc.2)%nat →
  ((fold_left (tier_step day) l acc).1.1
   ≤ (fold_left (tier_step day) l acc).1.2
   ≤ (fold_left (tier_step day) l acc).2)%nat ∧
  ((fold_left (tier_step day) l acc).2 ≤ acc.2 + length l)%nat.
Proof.
  revert acc. induction l as [|tq l IH]; intros acc Hacc; simpl.
  - split; [done|lia].
  - destruct (tier_step_nested day acc tq Hacc) as [H1 H2].
    destruct (IH _ H1) as [H3 H4]. split; [done|lia].
Qed.

(** On a non-empty list of translation errors [percentage_stats] returns
    the three counters as percentages of the number of translation errors,
    and the counters are nested: high precision at most medium at most
    coarse, at most the number of error pairs. *)
Theorem percentage_stats_nested (errors_trans errors_rot : list float)
    (day : bool) :
  errors_trans ≠ [] →
  ∃ (num_high num_medium num_coarse : nat) (ph pm pc : float),
    tier_counts errors_trans errors_rot day
    = (num_high, num_medium, num_coarse) ∧
    per num_high (length errors_trans) = Ok ph ∧
    per num_medium (length errors_trans) = Ok pm ∧
    per num_coarse (length errors_trans) = Ok pc ∧
    percentage_stats errors_trans errors_rot day = Ok (ph, pm, pc) ∧
    (num_high ≤ num_medium ≤ num_coarse)%nat ∧
    (num_coarse ≤ length errors_trans `min` length errors_rot)%nat.
Proof.
  intros Hne. unfold percentage_stats.
  destruct (fold_tier_nested day (zip errors_trans errors_rot) (0, 0, 0)%nat)
    as [H1 H2]; [simpl; lia|].
  fold (tier_counts errors_trans errors_rot day) in H1, H2.
  destruct (tier_counts errors_trans errors_rot day) as [[h m] c].
  cbn [fst snd] in *. rewrite length_zip in H2.
  unfold per. destruct errors_trans as [|t ts]; [done|]. cbn [length Nat.eqb].
  do 6 eexists. split; [reflexivity|]. repeat (split; [reflexivity|]).
  simpl in H2. split; [lia|]. simpl. lia.
Qed.

(** [percentage_stats] fails exactly on an empty list of translation
    errors, with a [ZeroDivisionError]; the length of the rotation errors
    plays no part. *)
Theorem percentage_stats_raises (errors_trans errors_rot : list float)
    (day : bool) (e : exn) :
  percentage_stats errors_trans errors_rot day = Raise e ↔
  errors_trans = [] ∧ e = ZeroDivisionError.
Proof.
  unfold percentage_stats, per.
  destruct errors_trans as [|t ts]; simpl.
  - split; [by intros [= <-]|by intros [_ ->]].
  - split; [done|by intros [? _]].
Qed.

Lemma percentage_stats_nested_witness :
  ∃ ph pm pc : float,
    percentage_stats [0.125; 0.375; 3; 20]%float [1; 4; 8; 1]%float true
    = Ok (ph, pm, pc) ∧
    tier_counts [0.125; 0.375; 3; 20]%float [1; 4; 8; 1]%float true
    = (1, 2, 3)%nat.
Proof.
  destruct (percentage_stats_nested [0.125; 0.375; 3; 20]%float
              [1; 4; 8; 1]%float true ltac:(done))
    as (h & m & c & ph & pm & pc & Hc & _ & _ & _ & Hp & _).
  exists ph, pm, pc. split; [exact Hp|]. reflexivity.
Defined.

End ReportFacts.
